(** * evogp: the array-encoded GP tree ([src/evogp/tree/tree.py])

    A shallow embedding of class [Tree]: its constructor, the reference
    interpreter [python_forward], the validator [assert_valid], the two
    serializers [__str__] and [to_infix], and [SR_fitness].

    Python exceptions are values of [exn]; a method that can raise returns a
    [result].  Tensors and numpy arrays are one-dimensional lists.  The numbers
    held by [node_value] and by the input vector are kept abstract behind the
    class [Scalar]; an instance for IEEE binary64 is given for the concrete
    cases.  The constants and tables that tree.py takes from [utils.py]
    ([NType], [Func], [FUNCS_NAMES], [FUNCS_DISPLAY]) are not part of the
    sources at hand and are parameters, bundled in the class [Utils]. *)

From Stdlib Require Import ZArith Floats.
From stdpp Require Import base option list strings pretty gmap.

Local Open Scope string_scope.
Local Open Scope list_scope.
Local Open Scope Z_scope.

(** ** Exceptions and results *)

(** The [assert] statements of tree.py, one constructor per statement. *)
Inductive assertion :=
  | init_node_value_shape      (* line 19 *)
  | init_node_type_shape       (* line 22 *)
  | init_subtree_size_shape    (* line 25 *)
  | sr_inputs_shape            (* line 79 *)
  | sr_labels_shape            (* line 84 *)
  | forward_inputs_shape       (* line 106 *)
  | forward_output_len         (* line 107 *)
  | forward_one_operand        (* line 137 *)
  | valid_root_size            (* line 165 *)
  | valid_subtree_size (i : nat) (* line 188, failing in iteration [i] *)
  | valid_one_operand.         (* line 190 *)

Inductive exn :=
  | AssertionError (a : assertion)
  | IndexError
  | ValueError
  | OverflowError
  | NotImplementedError
  | AttributeError (name : string).

Inductive result (A : Type) :=
  | Ok (x : A)
  | Raise (e : exn).
Arguments Ok {A} x.
Arguments Raise {A} e.

Global Instance result_ret : MRet result := λ A x, Ok x.
Global Instance result_bind : MBind result := λ A B k m,
  match m with
  | Ok x => k x
  | Raise e => Raise e
  end.

Definition assert (b : bool) (a : assertion) : result unit :=
  if b then Ok () else Raise (AssertionError a).

Definition is_ok {A} (r : result A) : bool :=
  match r with Ok _ => true | Raise _ => false end.

(** A [for] loop whose body may raise. *)
Fixpoint for_each {A S} (body : A → S → result S) (xs : list A) (s : S)
  : result S :=
  match xs with
  | [] => Ok s
  | x :: xs' => s' ← body x s; for_each body xs' s'
  end.

(** ** Python sequences *)

(** [a[i]] for a numpy array and an index that is not negative. *)
Definition np_get {A} (a : list A) (i : nat) : result A :=
  match a !! i with
  | Some x => Ok x
  | None => Raise IndexError
  end.

(** [l[k]] for any integer [k]: a negative index counts from the end. *)
Definition py_index {A} (l : list A) (k : Z) : result A :=
  let n := Z.of_nat (length l) in
  let k' := if k <? 0 then k + n else k in
  if k' <? 0 then Raise IndexError else np_get l (Z.to_nat k').

(** [a[k]] for a numpy array and any Python integer [k].  numpy converts the
    index to a C integer of 64 bits before it looks at the bounds, and raises
    [OverflowError] when it does not fit.  An array has fewer than 2**63
    elements, so an index within the bounds fits: the result is that of
    [py_index], but for the exception of an index that does not fit. *)
Definition np_index {A} (a : list A) (k : Z) : result A :=
  match py_index a k with
  | Ok x => Ok x
  | Raise e =>
      if (k <? - 2 ^ 63) || (2 ^ 63 <=? k) then Raise OverflowError
      else Raise e
  end.

(** [l[:num]]: a negative bound counts from the end, and the bound is clamped
    to the length. *)
Definition slice_to {A} (l : list A) (num : Z) : list A :=
  if num <? 0 then take (Z.to_nat (Z.of_nat (length l) + num)) l
  else take (Z.to_nat num) l.

(** [range(n - 1, -1, -1)] and [range(0, n)], with [n - 1] as on the
    integers.  The [n] of [python_forward] is a numpy integer, whose [n - 1]
    wraps around at the least value of its dtype: that one stored size is
    outside this model. *)
Definition range_down (n : Z) : list nat := reverse (seq 0 (Z.to_nat n)).
Definition range_up (n : Z) : list nat := seq 0 (Z.to_nat n).

(** [stack.pop()]; the head of the list is the top of the stack. *)
Definition pop {A} (stack : list A) : result (A * list A) :=
  match stack with
  | x :: rest => Ok (x, rest)
  | [] => Raise IndexError
  end.

(** ** What tree.py takes from elsewhere *)

(** The numbers of [node_value] and of the inputs. *)
Class Scalar (F : Type) := {
  fzero : F;                       (* 0.0 *)
  fadd : F → F → F;
  fsub : F → F → F;
  fmul : F → F → F;
  fdiv : F → F → F;
  allclose0 : F → bool;            (* np.allclose(x, 0.0) *)
  to_int : F → result Z;           (* int(x) *)
  eq_int : F → Z → bool;           (* x == k *)
  fmt2f : F → string;              (* f"{x:.2f}" *)
}.

(** The names imported by [from .utils import *]. *)
Class Utils := {
  NType_VAR : Z;
  NType_CONST : Z;
  NType_UFUNC : Z;
  NType_BFUNC : Z;
  NType_TFUNC : Z;
  Func_ADD : Z;
  Func_SUB : Z;
  Func_MUL : Z;
  Func_DIV : Z;
  FUNCS_NAMES : list string;
  FUNCS_DISPLAY : list string;
}.

(** What [SR_fitness] needs of torch: tensors with a shape, [check_tensor] of
    utils.py, and the registered operator [torch.ops.evogp.tree_SR_fitness],
    which receives the list of its arguments. *)
Inductive value (F T : Type) :=
  | VInt (z : Z)
  | VBool (b : bool)
  | VFloats (l : list F)
  | VInts (l : list Z)
  | VTensor (x : T).
Arguments VInt {F T} z.
Arguments VBool {F T} b.
Arguments VFloats {F T} l.
Arguments VInts {F T} l.
Arguments VTensor {F T} x.

Class Tensors (T : Type) := {
  shape : T → list nat;
  check_tensor : T → result T;
}.

Class Kernels (F T : Type) := {
  tree_SR_fitness : list (value F T) → result T;
}.

(** What a method does besides returning or raising. *)
Inductive effect :=
  | Printed (s : string)
  | Called (op : string).

(** ** The class [Tree] *)

Section Tree.
Context {F T : Type} {SF : Scalar F} {U : Utils} {TT : Tensors T}
  {K : Kernels F T}.

Record Tree := {
  input_len : Z;
  output_len : Z;
  gp_len : nat;
  node_value : list F;
  node_type : list Z;
  subtree_size : list Z;
}.

Definition __init__ (input_len output_len : Z)
    (node_value : list F) (node_type subtree_size : list Z) : result Tree :=
  let gp_len := length node_value in
  assert (bool_decide (length node_value = gp_len)) init_node_value_shape;;
  assert (bool_decide (length node_type = gp_len)) init_node_type_shape;;
  assert (bool_decide (length subtree_size = gp_len)) init_subtree_size_shape;;
  Ok {| input_len := input_len; output_len := output_len; gp_len := gp_len;
        node_value := node_value; node_type := node_type;
        subtree_size := subtree_size |}.

(** *** [python_forward] *)

(** The [if]/[elif] chain on [value[i]] for a function node. *)
Definition apply_func (v : F) (op1 op2 : F) : result F :=
  if eq_int v Func_ADD then Ok (fadd op2 op1)
  else if eq_int v Func_SUB then Ok (fsub op2 op1)
  else if eq_int v Func_MUL then Ok (fmul op2 op1)
  else if eq_int v Func_DIV then
    (if allclose0 op1 then Ok op2 else Ok (fdiv op2 op1))
  else Raise NotImplementedError.

(** The body of the loop at lines 113-134. *)
Definition forward_step (t : Tree) (inputs : list F) (i : nat)
    (operents : list F) : result (list F) :=
  ty ← np_get (node_type t) i;
  if ty =? NType_VAR then
    v ← np_get (node_value t) i;
    k ← to_int v;
    x ← np_index inputs k;
    Ok (x :: operents)
  else if ty =? NType_CONST then
    v ← np_get (node_value t) i;
    Ok (v :: operents)
  else
    '(op1, operents) ← pop operents;   (* right child *)
    '(op2, operents) ← pop operents;   (* left child *)
    v ← np_get (node_value t) i;
    res ← apply_func v op1 op2;
    Ok (res :: operents).

Definition python_forward (t : Tree) (inputs : list F) : result F :=
  assert (Z.of_nat (length inputs) =? input_len t) forward_inputs_shape;;
  assert (output_len t =? 1) forward_output_len;;
  tree_size ← np_get (subtree_size t) 0;
  operents ← for_each (forward_step t inputs) (range_down tree_size) [];
  assert (bool_decide (length operents = 1%nat)) forward_one_operand;;
  py_index operents 0.

(** *** [assert_valid] *)

(** The [while True] loop at lines 150-161.  [rest] is what is left of
    [node_type] from position [idx] on: reading [node_type[idx]] past the end
    raises. *)
Fixpoint root_size_loop (rest : list Z) (needed_length : Z) (idx : nat)
  : result nat :=
  match rest with
  | [] => Raise IndexError
  | ty :: rest' =>
      let needed_length := needed_length - 1 in
      let needed_length :=
        if ty =? NType_UFUNC then needed_length + 1
        else if ty =? NType_BFUNC then needed_length + 2
        else if ty =? NType_TFUNC then needed_length + 3
        else needed_length in
      let idx := S idx in
      if needed_length =? 0 then Ok idx
      else root_size_loop rest' needed_length idx
  end.

(** The [if]/[elif] chain at lines 169-186: the size of the subtree at a
    slot with tag [ty], and the stack after the pops. *)
Definition slot_size (ty : Z) (operents : list Z) : result (Z * list Z) :=
  if ty =? NType_VAR then Ok (1, operents)
  else if ty =? NType_CONST then Ok (1, operents)
  else if ty =? NType_UFUNC then
    '(op1, operents) ← pop operents;
    Ok (op1 + 1, operents)
  else if ty =? NType_BFUNC then
    '(op1, operents) ← pop operents;
    '(op2, operents) ← pop operents;
    Ok (op1 + op2 + 1, operents)
  else if ty =? NType_TFUNC then
    '(op1, operents) ← pop operents;
    '(op2, operents) ← pop operents;
    '(op3, operents) ← pop operents;
    Ok (op1 + op2 + op3 + 1, operents)
  else Raise NotImplementedError.

(** The body of the loop at lines 168-188. *)
Definition size_step (t : Tree) (i : nat) (operents : list Z)
  : result (list Z) :=
  ty ← np_get (node_type t) i;
  '(size, operents) ← slot_size ty operents;
  let operents := size :: operents in
  stored ← np_get (subtree_size t) i;
  assert (stored =? size) (valid_subtree_size i);;
  Ok operents.

Definition assert_valid (t : Tree) : result unit :=
  (* check forward success *)
  let dummy_input := replicate (Z.to_nat (input_len t)) fzero in
  python_forward t dummy_input;;
  (* check subtree size valid *)
  root_real_size ← root_size_loop (node_type t) 1 0;
  stored ← np_get (subtree_size t) 0;
  assert (stored =? Z.of_nat root_real_size) valid_root_size;;
  (* check subsize valid *)
  operents ← for_each (size_step t) (range_down (Z.of_nat root_real_size)) [];
  assert (bool_decide (length operents = 1%nat)) valid_one_operand;;
  Ok ().

(** *** [__str__] *)

Definition str_step (t : Tree) (i : nat) (res : string) : result string :=
  ty ← np_get (node_type t) i;
  res ←
    (if (ty =? NType_UFUNC) || (ty =? NType_BFUNC) || (ty =? NType_TFUNC) then
       v ← np_get (node_value t) i;
       k ← to_int v;
       name ← py_index FUNCS_NAMES k;
       Ok (res +:+ name)
     else if ty =? NType_VAR then
       v ← np_get (node_value t) i;
       k ← to_int v;
       Ok (res +:+ "x[" +:+ pretty k +:+ "]")
     else if ty =? NType_CONST then
       v ← np_get (node_value t) i;
       Ok (res +:+ fmt2f v)
     else Ok res);
  Ok (res +:+ " ").

Definition __str__ (t : Tree) : result string :=
  size ← np_get (subtree_size t) 0;
  for_each (str_step t) (range_up size) "".

(** *** [to_infix] *)

Definition infix_warning : string :=
  "Warning: output_len != 1, 'to_infix' function only support single output".

(** The body of the loop at lines 221-236.  Inside an f-string the
    replacement fields are evaluated from left to right. *)
Definition infix_step (t : Z) (v : F) (stack : list string)
  : result (list string) :=
  if t =? NType_VAR then
    k ← to_int v;
    Ok (("x[" +:+ pretty k +:+ "]") :: stack)
  else if t =? NType_CONST then
    Ok (fmt2f v :: stack)
  else if t =? NType_UFUNC then
    k ← to_int v;
    f ← py_index FUNCS_DISPLAY k;
    '(a, stack) ← pop stack;
    Ok ((f +:+ "(" +:+ a +:+ ")") :: stack)
  else if t =? NType_BFUNC then
    k ← to_int v;
    if bool_decide (k ∈ [5; 6; 7]) then
      k ← to_int v;
      f ← py_index FUNCS_DISPLAY k;
      '(a, stack) ← pop stack;
      '(b, stack) ← pop stack;
      Ok ((f +:+ "(" +:+ a +:+ "," +:+ b +:+ ")") :: stack)
    else
      '(a, stack) ← pop stack;
      k ← to_int v;
      f ← py_index FUNCS_DISPLAY k;
      '(b, stack) ← pop stack;
      Ok (("(" +:+ a +:+ " " +:+ f +:+ " " +:+ b +:+ ")") :: stack)
  else if t =? NType_TFUNC then
    k ← to_int v;
    f ← py_index FUNCS_DISPLAY k;
    '(a, stack) ← pop stack;
    '(b, stack) ← pop stack;
    '(c, stack) ← pop stack;
    Ok ((f +:+ "(" +:+ a +:+ "," +:+ b +:+ "," +:+ c +:+ ")") :: stack)
  else Ok stack.

(** What [to_infix] does after the test on [output_len]. *)
Definition infix_pass (t : Tree) : result string :=
  num ← np_get (subtree_size t) 0;
  let node_type := reverse (slice_to (node_type t) num) in
  let node_val := reverse (slice_to (node_value t) num) in
  stack ← for_each (λ tv, infix_step tv.1 tv.2) (zip node_type node_val) [];
  '(s, _) ← pop stack;
  Ok s.

Definition to_infix (t : Tree) : list effect * result string :=
  let out := if output_len t =? 1 then [] else [Printed infix_warning] in
  (out, infix_pass t).

(** *** [SR_fitness] *)

(** The attributes of an instance: the six assignments to [self] in
    [__init__], in their order.  No method of the class assigns to [self]. *)
Definition __dict__ (t : Tree) : gmap string (value F T) :=
  <["subtree_size" := VInts (subtree_size t)]>
  (<["node_type" := VInts (node_type t)]>
  (<["node_value" := VFloats (node_value t)]>
  (<["gp_len" := VInt (Z.of_nat (gp_len t))]>
  (<["output_len" := VInt (output_len t)]>
  (<["input_len" := VInt (input_len t)]> ∅))))).

(** [self.name] *)
Definition getattr (t : Tree) (name : string) : result (value F T) :=
  match __dict__ t !! name with
  | Some v => Ok v
  | None => Raise (AttributeError name)
  end.

(** Lines 75-100: everything up to the call of the operator, whose arguments
    are evaluated from left to right. *)
Definition SR_fitness_args (t : Tree) (inputs labels : T) (use_MSE : bool)
  : result (list (value F T)) :=
  inputs ← check_tensor inputs;
  labels ← check_tensor labels;
  batch_size ← py_index (shape inputs) 0;
  assert (bool_decide (Z.of_nat <$> shape inputs
                       = [Z.of_nat batch_size; input_len t]))
    sr_inputs_shape;;
  assert (bool_decide (Z.of_nat <$> shape labels
                       = [Z.of_nat batch_size; output_len t]))
    sr_labels_shape;;
  a3 ← getattr t "gp_len";
  a4 ← getattr t "input_len";
  a5 ← getattr t "output_len";
  a7 ← getattr t "batch_node_value";
  a8 ← getattr t "batch_node_type";
  a9 ← getattr t "batch_subtree_size";
  Ok [VInt 1; VInt (Z.of_nat batch_size); a3; a4; a5; VBool use_MSE;
      a7; a8; a9; VTensor inputs; VTensor labels].

Definition SR_fitness (t : Tree) (inputs labels : T) (use_MSE : bool)
  : list effect * result T :=
  match SR_fitness_args t inputs labels use_MSE with
  | Ok args => ([Called "torch.ops.evogp.tree_SR_fitness"],
                tree_SR_fitness args)
  | Raise e => ([], Raise e)
  end.

End Tree.

Arguments Tree F : clear implicits.

(** ** Encodings of expressions (spec, section 3)

    The layout invariant of the specification: slot 0 is the root, the
    children of a node follow it in contiguous runs, and [subtree_size] of a
    node is one more than the sum of its children's. *)

Inductive expr (F : Type) :=
  | EVar (v : F)
  | EConst (v : F)
  | EUnary (v : F) (c1 : expr F)
  | EBinary (v : F) (c1 c2 : expr F)
  | ETernary (v : F) (c1 c2 c3 : expr F).
Arguments EVar {F} v.
Arguments EConst {F} v.
Arguments EUnary {F} v c1.
Arguments EBinary {F} v c1 c2.
Arguments ETernary {F} v c1 c2 c3.

Record node (F : Type) := Node { n_type : Z; n_value : F; n_size : Z }.
Arguments Node {F} n_type n_value n_size.
Arguments n_type {F} n.
Arguments n_value {F} n.
Arguments n_size {F} n.

Section Encoding.
Context {F : Type} {SF : Scalar F} {U : Utils}.

Fixpoint encode (e : expr F) : list (node F) :=
  match e with
  | EVar v => [Node NType_VAR v 1]
  | EConst v => [Node NType_CONST v 1]
  | EUnary v c1 =>
      let l1 := encode c1 in
      Node NType_UFUNC v (1 + Z.of_nat (length l1)) :: l1
  | EBinary v c1 c2 =>
      let l1 := encode c1 in
      let l2 := encode c2 in
      Node NType_BFUNC v (1 + Z.of_nat (length l1) + Z.of_nat (length l2))
        :: l1 ++ l2
  | ETernary v c1 c2 c3 =>
      let l1 := encode c1 in
      let l2 := encode c2 in
      let l3 := encode c3 in
      Node NType_TFUNC v
        (1 + Z.of_nat (length l1) + Z.of_nat (length l2)
           + Z.of_nat (length l3))
        :: l1 ++ l2 ++ l3
  end.

(** The tag and the value of a slot, as [to_infix] pairs them. *)
Definition tagged (n : node F) : Z * F := (n_type n, n_value n).

(** The tree whose three arrays hold the given slots. *)
Definition tree_of (input_len output_len : Z) (slots : list (node F))
  : Tree F :=
  {| input_len := input_len; output_len := output_len;
     gp_len := length slots;
     node_value := n_value <$> slots;
     node_type := n_type <$> slots;
     subtree_size := n_size <$> slots |}.

(** Every [VAR] of the expression refers to an input. *)
Fixpoint vars_in_range (input_len : Z) (e : expr F) : Prop :=
  match e with
  | EVar v => ∃ k, to_int v = Ok k ∧ 0 ≤ k < input_len
  | EConst _ => True
  | EUnary _ c1 => vars_in_range input_len c1
  | EBinary _ c1 c2 => vars_in_range input_len c1 ∧ vars_in_range input_len c2
  | ETernary _ c1 c2 c3 =>
      vars_in_range input_len c1 ∧ vars_in_range input_len c2
      ∧ vars_in_range input_len c3
  end.

(** The valid trees of the specification: the root span is the encoding of an
    expression whose variables are inputs, the rest is padding. *)
Definition encodes (t : Tree F) (e : expr F) : Prop :=
  ∃ padding,
    t = tree_of (input_len t) (output_len t) (encode e ++ padding)
    ∧ vars_in_range (input_len t) e.

Definition valid_tree (t : Tree F) : Prop := ∃ e, encodes t e.

(** The arrays of [t] hold [slots] from position [p] on. *)
Definition holds_at (t : Tree F) (p : nat) (slots : list (node F)) : Prop :=
  ∀ (j : nat) nd, slots !! j = Some nd →
    node_type t !! (p + j)%nat = Some (n_type nd)
    ∧ node_value t !! (p + j)%nat = Some (n_value nd)
    ∧ subtree_size t !! (p + j)%nat = Some (n_size nd).

(** The expressions that [python_forward] evaluates: every function node is
    binary and carries one of the four arithmetic opcodes. *)
Definition arith_opcode (v : F) : bool :=
  eq_int v Func_ADD || eq_int v Func_SUB || eq_int v Func_MUL
  || eq_int v Func_DIV.

Fixpoint arithmetic (e : expr F) : Prop :=
  match e with
  | EVar _ | EConst _ => True
  | EBinary v c1 c2 => arith_opcode v = true ∧ arithmetic c1 ∧ arithmetic c2
  | EUnary _ _ | ETernary _ _ _ _ => False
  end.

(** The string of an expression, operands in the order of their slots. *)
Fixpoint infix_expr (e : expr F) : result string :=
  match e with
  | EVar v => k ← to_int v; Ok ("x[" +:+ pretty k +:+ "]")
  | EConst v => Ok (fmt2f v)
  | EUnary v c1 =>
      a ← infix_expr c1;
      k ← to_int v;
      f ← py_index FUNCS_DISPLAY k;
      Ok (f +:+ "(" +:+ a +:+ ")")
  | EBinary v c1 c2 =>
      b ← infix_expr c2;
      a ← infix_expr c1;
      k ← to_int v;
      f ← py_index FUNCS_DISPLAY k;
      if bool_decide (k ∈ [5; 6; 7])
      then Ok (f +:+ "(" +:+ a +:+ "," +:+ b +:+ ")")
      else Ok ("(" +:+ a +:+ " " +:+ f +:+ " " +:+ b +:+ ")")
  | ETernary v c1 c2 c3 =>
      c ← infix_expr c3;
      b ← infix_expr c2;
      a ← infix_expr c1;
      k ← to_int v;
      f ← py_index FUNCS_DISPLAY k;
      Ok (f +:+ "(" +:+ a +:+ "," +:+ b +:+ "," +:+ c +:+ ")")
  end.

(** How [python_forward] reads a slot: a function node is one whose tag is
    neither [VAR] nor [CONST], and its opcode is the first of the four that
    [value[i]] compares equal to. *)
Definition function_tag (ty : Z) : Prop :=
  ty ≠ NType_VAR ∧ ty ≠ NType_CONST.

Inductive arith_op := ADD | SUB | MUL | DIV.

Definition opcode_of (v : F) : option arith_op :=
  if eq_int v Func_ADD then Some ADD
  else if eq_int v Func_SUB then Some SUB
  else if eq_int v Func_MUL then Some MUL
  else if eq_int v Func_DIV then Some DIV
  else None.

(** The five tags are five different numbers. *)
Definition tags_distinct : Prop :=
  NoDup [NType_VAR; NType_CONST; NType_UFUNC; NType_BFUNC; NType_TFUNC].

(** The error of the interpreter when the stored root size lies beyond the
    arrays. *)
Definition oversized_error (t : Tree F) : exn :=
  if input_len t <? 0 then AssertionError forward_inputs_shape
  else if output_len t =? 1 then IndexError
  else AssertionError forward_output_len.

(** One entry of [subtree_size] overwritten. *)
Definition corrupt (t : Tree F) (i : nat) (z : Z) : Tree F :=
  {| input_len := input_len t; output_len := output_len t;
     gp_len := gp_len t; node_value := node_value t;
     node_type := node_type t;
     subtree_size := <[i := z]> (subtree_size t) |}.


End Encoding.

(** ** Numbers as IEEE binary64 *)

(** The magnitude of a finite number as a fraction. *)
Definition float_fraction (m : positive) (e : Z) : Z * Z :=
  if e <? 0 then (Z.pos m, 2 ^ (- e)) else (Z.pos m * 2 ^ e, 1).

(** [int(x)]: truncation towards zero. *)
Definition float_to_int (x : float) : result Z :=
  match Prim2SF x with
  | S754_nan => Raise ValueError
  | S754_infinity _ => Raise OverflowError
  | S754_zero _ => Ok 0
  | S754_finite s m e =>
      let '(n, d) := float_fraction m e in
      Ok (if s then - (n / d) else n / d)
  end.

(** [x == k] for an integer [k]. *)
Definition float_eq_int (x : float) (k : Z) : bool :=
  match Prim2SF x with
  | S754_nan | S754_infinity _ => false
  | S754_zero _ => k =? 0
  | S754_finite s m e =>
      let '(n, d) := float_fraction m e in
      (n mod d =? 0) && ((if s then - (n / d) else n / d) =? k)
  end.

(** [f"{x:.2f}"]: two decimals, the exact value rounded half to even. *)
Definition float_fmt2f (x : float) : string :=
  match Prim2SF x with
  | S754_nan => "nan"
  | S754_infinity s => if s then "-inf" else "inf"
  | S754_zero s => if s then "-0.00" else "0.00"
  | S754_finite s m e =>
      let '(n, d) := float_fraction m e in
      let q := (100 * n) / d in
      let r := (100 * n) mod d in
      let q := if (d <? 2 * r) || ((d =? 2 * r) && Z.odd q)
               then q + 1 else q in
      (if s then "-" else "") +:+ pretty (q / 100) +:+ "."
        +:+ pretty (q mod 100 / 10) +:+ pretty (q mod 10)
  end.

(** [np.allclose(x, 0.0)] with the default tolerances: [|x| <= 1e-08]. *)
Definition float_allclose0 (x : float) : bool :=
  PrimFloat.leb (PrimFloat.abs x) 0x1.5798ee2308c3ap-27%float.

Global Instance float_scalar : Scalar float := {|
  fzero := 0%float;
  fadd := PrimFloat.add;
  fsub := PrimFloat.sub;
  fmul := PrimFloat.mul;
  fdiv := PrimFloat.div;
  allclose0 := float_allclose0;
  to_int := float_to_int;
  eq_int := float_eq_int;
  fmt2f := float_fmt2f;
|}.

(** ** A table for the concrete cases

    An instance of [Utils]: the tags and the four arithmetic opcodes are
    numbered in the order in which tree.py tests them, and the opcodes 5, 6
    and 7, which [to_infix] prints in function style, are taken to be [pow],
    [max] and [min]. *)
Definition sample_names : list string :=
  ["if"; "+"; "-"; "*"; "/"; "pow"; "max"; "min"; "<"; ">"; "<="; ">=";
   "sin"; "cos"; "tan"].

Definition sample_utils : Utils := {|
  NType_VAR := 0; NType_CONST := 1; NType_UFUNC := 2; NType_BFUNC := 3;
  NType_TFUNC := 4;
  Func_ADD := 1; Func_SUB := 2; Func_MUL := 3; Func_DIV := 4;
  FUNCS_NAMES := sample_names;
  FUNCS_DISPLAY := sample_names;
|}.

(** The tree that holds the encoding of an expression and no padding. *)
Definition sample_tree (input_len output_len : Z) (e : expr float)
  : Tree float :=
  tree_of input_len output_len (encode (U := sample_utils) e).

(** Tensors reduced to their shape, and an operator that always answers. *)
Definition shape_tensors : Tensors (list nat) := {|
  shape := λ x, x;
  check_tensor := λ x, Ok x;
|}.

Definition constant_kernels : Kernels float (list nat) := {|
  tree_SR_fitness := λ _, Ok [1%nat];
|}.

(** ** Expressions as the passes read them *)

Section Semantics.
Context {F : Type} {SF : Scalar F} {U : Utils}.

(** Expressions without unary and ternary nodes. *)
Fixpoint binary_only (e : expr F) : Prop :=
  match e with
  | EVar _ | EConst _ => True
  | EBinary _ c1 c2 => binary_only c1 ∧ binary_only c2
  | EUnary _ _ | ETernary _ _ _ _ => False
  end.

(** The value of an expression without unary and ternary nodes, in the order
    in which the reverse pass of [python_forward] meets its parts: the second
    child, the first child, the node.  The first child is [op1], the right
    operand. *)
Fixpoint eval_expr (inputs : list F) (e : expr F) : result F :=
  match e with
  | EVar v => k ← to_int v; np_index inputs k
  | EConst v => Ok v
  | EBinary v c1 c2 =>
      op2 ← eval_expr inputs c2;
      op1 ← eval_expr inputs c1;
      apply_func v op1 op2
  | EUnary _ _ | ETernary _ _ _ _ => Raise NotImplementedError
  end.

(** The tokens of an expression in the order of its slots, a space after
    each, as the forward pass of [__str__] appends them. *)
Fixpoint str_expr (e : expr F) : result string :=
  match e with
  | EVar v => k ← to_int v; Ok ("x[" +:+ pretty k +:+ "]" +:+ " ")
  | EConst v => Ok (fmt2f v +:+ " ")
  | EUnary v c1 =>
      k ← to_int v;
      name ← py_index FUNCS_NAMES k;
      s1 ← str_expr c1;
      Ok (name +:+ " " +:+ s1)
  | EBinary v c1 c2 =>
      k ← to_int v;
      name ← py_index FUNCS_NAMES k;
      s1 ← str_expr c1;
      s2 ← str_expr c2;
      Ok (name +:+ " " +:+ s1 +:+ s2)
  | ETernary v c1 c2 c3 =>
      k ← to_int v;
      name ← py_index FUNCS_NAMES k;
      s1 ← str_expr c1;
      s2 ← str_expr c2;
      s3 ← str_expr c3;
      Ok (name +:+ " " +:+ s1 +:+ s2 +:+ s3)
  end.

(** The slots of several expressions one after the other, and the sizes the
    second loop of [assert_valid] holds for them on its stack. *)
Definition encode_all (es : list (expr F)) : list (node F) :=
  concat (encode <$> es).

Definition sizes (es : list (expr F)) : list Z :=
  (λ e, Z.of_nat (length (encode e))) <$> es.

(** Two runs of a loop that end alike: with stacks of the same height, or
    with the same exception. *)
Definition same_shape {A : Type} (r1 r2 : result (list A)) : Prop :=
  match r1, r2 with
  | Ok s1, Ok s2 => length s1 = length s2
  | Raise e1, Raise e2 => e1 = e2
  | _, _ => False
  end.

End Semantics.

(** ** The graph of a tree ([_fillout_graph], [to_png]) and [forward]

    The methods below raise more than the exceptions of [exn]: two further
    [assert] statements, the use of a local variable that no branch has
    bound, and the error of [Tensor.view] on an element of another width.
    The recursion of [_fillout_graph] is not structural and takes fuel. *)

Inductive late_assertion :=
  | forward_x_dim      (* line 43 *)
  | forward_x_shape.   (* line 49 *)

Inductive failure :=
  | Py (e : exn)
  | LateAssertionError (a : late_assertion)
  | UnboundLocalError (name : string)
  | RuntimeError.

Inductive run (A : Type) :=
  | Return (x : A)
  | Fail (e : failure)
  | OutOfFuel.
Arguments Return {A} x.
Arguments Fail {A} e.
Arguments OutOfFuel {A}.

Global Instance run_ret : MRet run := λ A x, Return x.
Global Instance run_bind : MBind run := λ A B k m,
  match m with
  | Return x => k x
  | Fail e => Fail e
  | OutOfFuel => OutOfFuel
  end.

(** A method of the first part called from the second. *)
Definition lift {A} (r : result A) : run A :=
  match r with
  | Ok x => Return x
  | Raise e => Fail (Py e)
  end.

Definition late_assert (b : bool) (a : late_assertion) : run unit :=
  if b then Return () else Fail (LateAssertionError a).

(** A [for] loop whose body may raise or run out of fuel. *)
Fixpoint for_run {A S} (body : A → S → run S) (xs : list A) (s : S) : run S :=
  match xs with
  | [] => Return s
  | x :: xs' => s' ← body x s; for_run body xs' s'
  end.

(** The two flags of [NType] that [_fillout_graph] reads, and the
    reinterpretation [x.view(torch.int32)] of a value. *)
Class Flags := {
  NType_TYPE_MASK : Z;
  NType_OUT_NODE : Z;
}.

Class Bits (F : Type) := {
  view_int32 : F → option Z;    (* [None]: RuntimeError *)
}.

Definition view {F} {B : Bits F} (x : F) : run Z :=
  match view_int32 x with
  | Some b => Return b
  | None => Fail RuntimeError
  end.

(** A [networkx.DiGraph] with the attribute [node_idx] that [to_png] gives
    it: the attributes of the nodes, and the [order] of the edges. *)
Record DiGraph := {
  node_idx : nat;
  nodes : gmap nat (gmap string string);
  edges : gmap (nat * nat) nat;
}.

(** [graph.add_node(n, **attr)]: the attributes of a node that exists are
    updated. *)
Definition add_node (g : DiGraph) (n : nat) (attr : gmap string string)
  : DiGraph :=
  {| node_idx := node_idx g;
     nodes := <[n := attr ∪ default ∅ (nodes g !! n)]> (nodes g);
     edges := edges g |}.

(** A node named by an edge is created without attributes when it is not
    there. *)
Definition touch (n : nat) (ns : gmap nat (gmap string string))
  : gmap nat (gmap string string) :=
  match ns !! n with
  | Some _ => ns
  | None => <[n := ∅]> ns
  end.

(** [graph.add_edge(u, v, order=i)] *)
Definition add_edge (g : DiGraph) (u v : nat) (order : nat) : DiGraph :=
  {| node_idx := node_idx g;
     nodes := touch v (touch u (nodes g));
     edges := <[(u, v) := order]> (edges g) |}.

(** [graph.node_idx += 1] *)
Definition next_node (g : DiGraph) : DiGraph :=
  {| node_idx := S (node_idx g); nodes := nodes g; edges := edges g |}.

Section Graph.
Context {F : Type} {SF : Scalar F} {U : Utils} {FL : Flags} {B : Bits F}.

(** [FUNCS_DISPLAY[int(node_val)]] without an output index, and
    [FUNCS_DISPLAY[node_val.view(torch.int32) & 0xFF]] with one. *)
Definition function_label (node_val : F) (output_index : Z) : run string :=
  if output_index =? -1 then
    k ← lift (to_int node_val);
    lift (py_index FUNCS_DISPLAY k)
  else
    b ← view node_val;
    lift (py_index FUNCS_DISPLAY (Z.land b 255)).

(** The [if]/[elif] chain at lines 251-274: the label and the number of
    children, or nothing when no branch is taken and the two names stay
    unbound. *)
Definition describe (node_type : Z) (node_val : F) (output_index : Z)
  : run (option (string * nat)) :=
  if node_type =? NType_CONST then
    Return (Some (fmt2f node_val, 0%nat))
  else if node_type =? NType_VAR then
    k ← lift (to_int node_val);
    Return (Some ("x[" +:+ pretty k +:+ "]", 0%nat))
  else if node_type =? NType_UFUNC then
    node_label ← function_label node_val output_index;
    Return (Some (node_label, 1%nat))
  else if node_type =? NType_BFUNC then
    node_label ← function_label node_val output_index;
    Return (Some (node_label, 2%nat))
  else if node_type =? NType_TFUNC then
    node_label ← function_label node_val output_index;
    Return (Some (node_label, 3%nat))
  else Return None.

(** Lines 241-281: what one call does before it turns to the children. *)
Definition visit (t : Tree F) (g : DiGraph) : run (DiGraph * nat) :=
  let node_id := node_idx g in
  ty ← lift (np_get (node_type t) node_id);
  let node_type := Z.land ty NType_TYPE_MASK in
  node_val ← lift (np_get (node_value t) node_id);
  output_index ←
    (if Z.land ty NType_OUT_NODE =? 0 then Return (-1)
     else b ← view node_val; Return (Z.shiftr b 16));
  d ← describe node_type node_val output_index;
  match d with
  | None => Fail (UnboundLocalError "node_label")
  | Some (node_label, child_remain) =>
      if output_index =? -1 then
        Return (add_node g node_id {["label" := node_label]}, child_remain)
      else
        Return (add_node g node_id
                  (<["label" := node_label]>
                   (<["xlabel" := "out[" +:+ pretty output_index +:+ "]"]>
                    {["color" := "red"]})),
                child_remain)
  end.

(** [_fillout_graph] with a bound on the depth of the recursion. *)
Fixpoint fillout (fuel : nat) (t : Tree F) (g : DiGraph) : run DiGraph :=
  match fuel with
  | O => OutOfFuel
  | S fuel' =>
      let node_id := node_idx g in
      '(g, child_remain) ← visit t g;
      for_run (λ i g,
                 let g := next_node g in
                 let g := add_edge g (node_idx g) node_id i in
                 fillout fuel' t g)
        (seq 0 child_remain) g
  end.

(** Every call but the last of a chain of nested calls reads a slot, and the
    calls of a chain read different slots: no chain is longer than the
    number of slots from [node_idx] on, plus one. *)
Definition _fillout_graph (t : Tree F) (g : DiGraph) : run DiGraph :=
  fillout (S (length (node_type t) - node_idx g)) t g.

Definition empty_graph : DiGraph :=
  {| node_idx := 0; nodes := ∅; edges := ∅ |}.

(** Lines 293-295 and 300 of [to_png]: the graph, and the label it gets.
    The conversion to pygraphviz and the drawing are left out. *)
Definition to_png_graph (t : Tree F) : run (DiGraph * string) :=
  graph ← _fillout_graph t empty_graph;
  Return (graph, "size: " +:+ pretty (node_idx graph + 1)%nat).

(** The same graph from the expression: the node, then each child after an
    edge from its first slot to the node. *)
Definition root_label (e : expr F) : run string :=
  match e with
  | EVar v => k ← lift (to_int v); Return ("x[" +:+ pretty k +:+ "]")
  | EConst v => Return (fmt2f v)
  | EUnary v _ | EBinary v _ _ | ETernary v _ _ _ =>
      k ← lift (to_int v); lift (py_index FUNCS_DISPLAY k)
  end.

Definition children (e : expr F) : list (expr F) :=
  match e with
  | EVar _ | EConst _ => []
  | EUnary _ c1 => [c1]
  | EBinary _ c1 c2 => [c1; c2]
  | ETernary _ c1 c2 c3 => [c1; c2; c3]
  end.

Fixpoint draw_expr (e : expr F) (g : DiGraph) : run DiGraph :=
  let node_id := node_idx g in
  let child (i : nat) (c : expr F) (g : DiGraph) : run DiGraph :=
    let g := next_node g in
    draw_expr c (add_edge g (node_idx g) node_id i) in
  node_label ← root_label e;
  let g := add_node g node_id {["label" := node_label]} in
  match e with
  | EVar _ | EConst _ => Return g
  | EUnary _ c1 => child 0%nat c1 g
  | EBinary _ c1 c2 => g ← child 0%nat c1 g; child 1%nat c2 g
  | ETernary _ c1 c2 c3 =>
      g ← child 0%nat c1 g; g ← child 1%nat c2 g; child 2%nat c3 g
  end.

(** The number of nodes on the longest path from the root. *)
Fixpoint depth (e : expr F) : nat :=
  match e with
  | EVar _ | EConst _ => 1
  | EUnary _ c1 => S (depth c1)
  | EBinary _ c1 c2 => S (Nat.max (depth c1) (depth c2))
  | ETernary _ c1 c2 c3 =>
      S (Nat.max (depth c1) (Nat.max (depth c2) (depth c3)))
  end.

(** The edges of the graph of an expression whose root is node [p]. *)
Fixpoint tree_edges (e : expr F) (p : nat) : gset (nat * nat) :=
  match e with
  | EVar _ | EConst _ => ∅
  | EUnary _ c1 => {[(S p, p)]} ∪ tree_edges c1 (S p)
  | EBinary _ c1 c2 =>
      let p2 := (S p + length (encode c1))%nat in
      {[(S p, p)]} ∪ tree_edges c1 (S p) ∪ {[(p2, p)]} ∪ tree_edges c2 p2
  | ETernary _ c1 c2 c3 =>
      let p2 := (S p + length (encode c1))%nat in
      let p3 := (p2 + length (encode c2))%nat in
      {[(S p, p)]} ∪ tree_edges c1 (S p) ∪ {[(p2, p)]} ∪ tree_edges c2 p2
      ∪ {[(p3, p)]} ∪ tree_edges c3 p3
  end.

(** The tags carry no output flag and pass the type mask. *)
Definition plain_tags : Prop :=
  ∀ tag, tag ∈ [NType_VAR; NType_CONST; NType_UFUNC; NType_BFUNC;
                NType_TFUNC] →
    Z.land tag NType_TYPE_MASK = tag ∧ Z.land tag NType_OUT_NODE = 0.

End Graph.

(** The flags for the concrete cases: the low seven bits are the tag, the
    eighth marks an output node.  An element of a float64 tensor cannot be
    viewed as [int32]. *)
Definition sample_flags : Flags :=
  {| NType_TYPE_MASK := 127; NType_OUT_NODE := 128 |}.

Definition float_bits : Bits float :=
  {| view_int32 := λ _, None |}.


(** *** [forward] *)

(** An argument of the operator [torch.ops.evogp.tree_evaluate]: an integer,
    a two-dimensional tensor given by its rows, or the tensor of the
    caller. *)
Inductive arg (F T : Type) :=
  | AInt (z : Z)
  | AFloats (rows : list (list F))
  | AInts (rows : list (list Z))
  | ATensor (x : T).
Arguments AInt {F T} z.
Arguments AFloats {F T} rows.
Arguments AInts {F T} rows.
Arguments ATensor {F T} x.

(** What [forward] needs of torch besides [Tensors]: [x.unsqueeze(0)], which
    puts a dimension of size one first, [res[0]], and the registered
    operator, which receives the list of its arguments. *)
Class Torch (F T : Type) {TT : Tensors T} := {
  unsqueeze : T → T;
  shape_unsqueeze : ∀ x, shape (unsqueeze x) = 1%nat :: shape x;
  getitem0 : T → run T;
  tree_evaluate : list (arg F T) → run T;
}.

Section Forward.
Context {F T : Type} {TT : Tensors T} {TO : Torch F T}.

(** Lines 41-66: everything up to the call of the operator.
    [v.repeat(batch_size, 1)] is [batch_size] rows, each a copy of [v]. *)
Definition forward_args (t : Tree F) (x : T)
  : run (bool * list (arg F T)) :=
  x ← lift (check_tensor x);
  late_assert (length (shape x) <=? 2)%nat forward_x_dim;;
  let is_expand_input := bool_decide (length (shape x) = 1%nat) in
  let x := if is_expand_input then unsqueeze x else x in
  x_shape_1 ← lift (py_index (shape x) 1);
  late_assert (bool_decide (Z.of_nat x_shape_1 = input_len t))
    forward_x_shape;;
  batch_size ← lift (py_index (shape x) 0);
  let batch_node_value := replicate batch_size (node_value t) in
  let batch_node_type := replicate batch_size (node_type t) in
  let batch_subtree_size := replicate batch_size (subtree_size t) in
  Return (is_expand_input,
          [AInt (Z.of_nat batch_size); AInt (Z.of_nat (gp_len t));
           AInt (input_len t); AInt (output_len t);
           AFloats batch_node_value; AInts batch_node_type;
           AInts batch_subtree_size; ATensor x]).

Definition forward (t : Tree F) (x : T) : list effect * run T :=
  match forward_args t x with
  | Return (is_expand_input, args) =>
      ([Called "torch.ops.evogp.tree_evaluate"],
       res ← tree_evaluate args;
       if is_expand_input : bool then getitem0 res else Return res)
  | Fail e => ([], Fail e)
  | OutOfFuel => ([], OutOfFuel)
  end.

End Forward.

(** For the concrete cases: on tensors reduced to their shape, an operator
    that answers one row of outputs for each row of inputs. *)
Definition shape_torch : @Torch float (list nat) shape_tensors :=
  @Build_Torch float (list nat) shape_tensors
    (λ x, (1 :: x)%nat)
    (λ x, eq_refl)
    (λ x, match x with
          | [] => Fail (Py IndexError)
          | _ :: x' => Return x'
          end)
    (λ args,
       match args with
       | AInt b :: _ :: _ :: AInt o :: _ => Return [Z.to_nat b; Z.to_nat o]
       | _ => Fail RuntimeError
       end).
(** * Properties *)

(** ** The binary64 instance on concrete values *)

Example float_fmt2f_examples :
  float_fmt2f 0x1.0cccccccccccdp+2 = "4.20"
  ∧ float_fmt2f 0.125 = "0.12" ∧ float_fmt2f 0.375 = "0.38"
  ∧ float_fmt2f (-0.5) = "-0.50" ∧ float_fmt2f 1234.5 = "1234.50"
  ∧ float_fmt2f infinity = "inf" ∧ float_fmt2f nan = "nan".
Proof. repeat split; reflexivity. Qed.

Example float_to_int_examples :
  float_to_int 2.5 = Ok 2 ∧ float_to_int (-2.5) = Ok (-2)
  ∧ float_to_int 0 = Ok 0 ∧ float_to_int nan = Raise ValueError
  ∧ float_to_int infinity = Raise OverflowError.
Proof. repeat split; reflexivity. Qed.

Example float_eq_int_examples :
  float_eq_int 4 4 = true ∧ float_eq_int 4.5 4 = false
  ∧ float_eq_int (-0) 0 = true ∧ float_eq_int nan 0 = false.
Proof. repeat split; reflexivity. Qed.

Example float_allclose0_examples :
  float_allclose0 0 = true ∧ float_allclose0 (-0x1p-27) = true
  ∧ float_allclose0 0x1p-26 = false ∧ float_allclose0 nan = false
  ∧ float_allclose0 infinity = false.
Proof. repeat split; reflexivity. Qed.

(** The tree of the single constant 4.2 evaluates to 4.2 and is printed as
    [4.20]. *)
Example constant_tree :
  let t := sample_tree 1 1 (EConst 0x1.0cccccccccccdp+2%float) in
  python_forward (U := sample_utils) t [7%float]
  = Ok 0x1.0cccccccccccdp+2%float
  ∧ to_infix (U := sample_utils) t = ([], Ok "4.20")
  ∧ __str__ (U := sample_utils) t = Ok "4.20 "
  ∧ assert_valid (U := sample_utils) t = Ok ().
Proof. repeat split; reflexivity. Qed.

(** ** Loops and sequences *)

Section Loops.
Context {A S : Type}.
Implicit Types (body : A → S → result S) (xs ys : list A) (s : S).

Lemma for_each_app body xs ys s :
  for_each body (xs ++ ys) s = (s' ← for_each body xs s; for_each body ys s').
Proof.
  revert s. induction xs as [|x xs IH]; intros s; simpl; [done|].
  destruct (body x s) as [s'|e]; simpl; [apply IH | done].
Qed.

Lemma for_each_ext body body' xs s :
  (∀ x s, x ∈ xs → body x s = body' x s) →
  for_each body xs s = for_each body' xs s.
Proof.
  revert s. induction xs as [|x xs IH]; intros s Hext; simpl; [done|].
  rewrite <- (Hext x s) by left.
  destruct (body x s) as [s'|e]; simpl; [|done].
  apply IH. intros y s'' Hy. apply Hext. by right.
Qed.

Lemma for_each_snoc body xs x s :
  for_each body (xs ++ [x]) s = (s' ← for_each body xs s; body x s').
Proof.
  rewrite for_each_app. destruct (for_each body xs s) as [s'|e]; simpl; [|done].
  by destruct (body x s').
Qed.

End Loops.

Lemma np_get_Some {A} (a : list A) i x : a !! i = Some x → np_get a i = Ok x.
Proof. unfold np_get. by intros ->. Qed.

Lemma np_get_None {A} (a : list A) i :
  a !! i = None → np_get a i = Raise IndexError.
Proof. unfold np_get. by intros ->. Qed.

Lemma py_index_nat {A} (l : list A) (i : nat) :
  py_index l (Z.of_nat i) = np_get l i.
Proof.
  unfold py_index.
  destruct (Z.ltb_spec (Z.of_nat i) 0) as [?|_]; [lia|].
  destruct (Z.ltb_spec (Z.of_nat i) 0) as [?|_]; [lia|].
  by rewrite Nat2Z.id.
Qed.

Lemma range_down_S (n : nat) :
  range_down (Z.of_nat (S n)) = n :: range_down (Z.of_nat n).
Proof.
  unfold range_down. rewrite !Nat2Z.id, seq_S, reverse_app. done.
Qed.

Lemma reverse_seq_app (a n m : nat) :
  reverse (seq a (n + m)) = reverse (seq (a + n) m) ++ reverse (seq a n).
Proof. by rewrite seq_app, reverse_app. Qed.

(** ** The constructor *)

Section Constructor.
Context {F : Type}.

(** C7 (as amended).  [__init__] checks the lengths of [node_type] and
    [subtree_size] against the length of [node_value] and nothing else: it
    returns a tree exactly when the three lengths agree, whatever
    [input_len] and [output_len] are, and raises the assertion error of the
    first array of the wrong length otherwise. *)
Theorem init_checks_lengths_only (il ol : Z) (v : list F) (ty sz : list Z) :
  (length ty = length v ∧ length sz = length v
   ∧ __init__ il ol v ty sz
     = Ok {| input_len := il; output_len := ol; gp_len := length v;
             node_value := v; node_type := ty; subtree_size := sz |})
  ∨ (length ty ≠ length v
     ∧ __init__ il ol v ty sz = Raise (AssertionError init_node_type_shape))
  ∨ (length ty = length v ∧ length sz ≠ length v
     ∧ __init__ il ol v ty sz
       = Raise (AssertionError init_subtree_size_shape)).
Proof.
  unfold __init__.
  rewrite (bool_decide_eq_true_2 (length v = length v)) by done. simpl.
  destruct (decide (length ty = length v)) as [Hty|Hty].
  - rewrite (bool_decide_eq_true_2 _ Hty). simpl.
    destruct (decide (length sz = length v)) as [Hsz|Hsz].
    + rewrite (bool_decide_eq_true_2 _ Hsz). simpl. by left.
    + rewrite (bool_decide_eq_false_2 _ Hsz). simpl. right. by right.
  - rewrite (bool_decide_eq_false_2 _ Hty). simpl. right. by left.
Qed.

End Constructor.

(** C7, counterexample.  Construction succeeds with [input_len] and
    [output_len] zero or negative. *)
Lemma init_accepts_nonpositive_lens :
  ¬ (∀ (il ol : Z) (v : list float) (ty sz : list Z),
       il ≤ 0 ∨ ol ≤ 0 → is_ok (__init__ il ol v ty sz) = false).
Proof.
  intros Hclaim.
  specialize (Hclaim 0 (-3) [0%float] [0] [1] (or_introl (Z.le_refl 0))).
  discriminate Hclaim.
Qed.

(** ** The reference interpreter *)

Section Interpreter.
Context {F : Type} {SF : Scalar F} {U : Utils}.
Implicit Types (t : Tree F) (inputs operents : list F) (v : F).

Lemma apply_func_opcode v op1 op2 :
  apply_func v op1 op2 =
    match opcode_of v with
    | Some ADD => Ok (fadd op2 op1)
    | Some SUB => Ok (fsub op2 op1)
    | Some MUL => Ok (fmul op2 op1)
    | Some DIV => Ok (if allclose0 op1 then op2 else fdiv op2 op1)
    | None => Raise NotImplementedError
    end.
Proof.
  unfold apply_func, opcode_of.
  destruct (eq_int v Func_ADD); [done|].
  destruct (eq_int v Func_SUB); [done|].
  destruct (eq_int v Func_MUL); [done|].
  destruct (eq_int v Func_DIV); [|done].
  by destruct (allclose0 op1).
Qed.

(** A slot whose tag is neither [VAR] nor [CONST] takes the last branch of
    the loop body, whatever the tag. *)
Lemma forward_step_function t inputs i ty operents :
  node_type t !! i = Some ty → function_tag ty →
  forward_step t inputs i operents =
    match operents with
    | op1 :: op2 :: rest =>
        v ← np_get (node_value t) i;
        res ← apply_func v op1 op2;
        Ok (res :: rest)
    | _ => Raise IndexError
    end.
Proof.
  intros Hty [Hvar Hconst]. unfold forward_step.
  rewrite (np_get_Some _ _ _ Hty). simpl.
  destruct (Z.eqb_spec ty NType_VAR) as [?|_]; [done|].
  destruct (Z.eqb_spec ty NType_CONST) as [?|_]; [done|].
  destruct operents as [|op1 [|op2 rest]]; done.
Qed.

Lemma np_index_Ok {A} (a : list A) k x :
  py_index a k = Ok x → np_index a k = Ok x.
Proof. unfold np_index. by intros ->. Qed.

Lemma forward_step_var t inputs i v k x operents :
  node_type t !! i = Some NType_VAR → node_value t !! i = Some v →
  to_int v = Ok k → py_index inputs k = Ok x →
  forward_step t inputs i operents = Ok (x :: operents).
Proof.
  intros Hty Hv Hk Hx. unfold forward_step.
  rewrite (np_get_Some _ _ _ Hty). simpl. rewrite Z.eqb_refl.
  rewrite (np_get_Some _ _ _ Hv). simpl. rewrite Hk. simpl.
  by rewrite (np_index_Ok _ _ _ Hx).
Qed.

Lemma forward_step_const t inputs i v operents :
  NType_CONST ≠ NType_VAR →
  node_type t !! i = Some NType_CONST → node_value t !! i = Some v →
  forward_step t inputs i operents = Ok (v :: operents).
Proof.
  intros Hne Hty Hv. unfold forward_step.
  rewrite (np_get_Some _ _ _ Hty). simpl.
  destruct (Z.eqb_spec NType_CONST NType_VAR) as [?|_]; [done|].
  rewrite Z.eqb_refl, (np_get_Some _ _ _ Hv). done.
Qed.

(** The interpreter on a tree of three slots: a function node over two
    leaves.  The leaf in slot 1 is popped first. *)
Lemma python_forward_three_slots il ty v (l1 l2 : node F) inputs x1 x2 :
  function_tag ty →
  Z.of_nat (length inputs) = il →
  (∀ st, forward_step (tree_of il 1 [Node ty v 3; l1; l2]) inputs 2 st
         = Ok (x2 :: st)) →
  (∀ st, forward_step (tree_of il 1 [Node ty v 3; l1; l2]) inputs 1 st
         = Ok (x1 :: st)) →
  python_forward (tree_of il 1 [Node ty v 3; l1; l2]) inputs
  = apply_func v x1 x2.
Proof.
  intros Hty Hlen H2 H1. unfold python_forward.
  cbn [input_len output_len subtree_size tree_of fmap list_fmap n_size].
  rewrite Hlen, !Z.eqb_refl. simpl.
  change (range_down 3) with [2%nat; 1%nat; 0%nat].
  cbn [for_each]. rewrite H2. simpl. rewrite H1. simpl.
  rewrite (forward_step_function _ _ _ ty) by done. simpl.
  destruct (apply_func v x1 x2) as [r|e]; done.
Qed.

End Interpreter.

Lemma tags_distinct_cases {U : Utils} :
  tags_distinct →
  function_tag NType_UFUNC ∧ function_tag NType_BFUNC
  ∧ function_tag NType_TFUNC ∧ NType_CONST ≠ NType_VAR.
Proof.
  unfold tags_distinct, function_tag.
  rewrite !NoDup_cons, !not_elem_of_cons. intuition congruence.
Qed.

Lemma sample_tags_distinct : tags_distinct (U := sample_utils).
Proof.
  unfold tags_distinct. simpl.
  rewrite !NoDup_cons, !not_elem_of_cons.
  repeat split; try discriminate; try apply not_elem_of_nil.
  apply NoDup_nil_2.
Qed.

Lemma sample_function_tag (ty : Z) :
  ty = 2 ∨ ty = 3 ∨ ty = 4 → function_tag (U := sample_utils) ty.
Proof. intros [-> | [-> | ->]]; split; discriminate. Qed.

(** C4 (as amended).  At a function node whose opcode is [ADD], [SUB],
    [MUL] or [DIV] the interpreter pops the right operand first and the left
    operand second and pushes [left OP right]: [left + right],
    [left - right], [left * right], the protected quotient of [left] by
    [right], by the opcode.  At a function node with any other opcode it pops
    the two operands and raises [NotImplementedError].  The tree of one [ADD]
    node over the variables 0 and 1 evaluates to 5.0 at the inputs 2.0 and
    3.0. *)
Theorem binary_node_pops_right_then_left {U : Utils} :
  (∀ {F} {SF : Scalar F} (t : Tree F) inputs i ty v right left rest,
     node_type t !! i = Some ty → function_tag ty →
     node_value t !! i = Some v →
     forward_step t inputs i (right :: left :: rest) =
       match opcode_of v with
       | Some ADD => Ok (fadd left right :: rest)
       | Some SUB => Ok (fsub left right :: rest)
       | Some MUL => Ok (fmul left right :: rest)
       | Some DIV =>
           Ok ((if allclose0 right then left else fdiv left right) :: rest)
       | None => Raise NotImplementedError
       end)
  ∧ (∀ v : float, tags_distinct → opcode_of v = Some ADD →
     python_forward
       (tree_of 2 1 [Node NType_BFUNC v 3; Node NType_VAR 0%float 1;
                     Node NType_VAR 1%float 1])
       [2%float; 3%float]
     = Ok 5%float).
Proof.
  split.
  - intros F HF t inputs i ty v right left rest Hty Htag Hv.
    rewrite (forward_step_function _ _ _ ty) by done.
    rewrite (np_get_Some _ _ _ Hv). simpl. rewrite apply_func_opcode.
    by destruct (opcode_of v) as [[]|].
  - intros v Htags Hadd.
    destruct (tags_distinct_cases Htags) as (_ & Htag & _ & _).
    rewrite (python_forward_three_slots _ _ _ _ _ _ 2%float 3%float); try done.
    + by rewrite apply_func_opcode, Hadd.
    + intros st. by apply (forward_step_var _ _ _ 1%float 1 3%float).
    + intros st. by apply (forward_step_var _ _ _ 0%float 0 2%float).
Qed.

Lemma binary_node_pops_right_then_left_witness :
  forward_step (U := sample_utils)
    (sample_tree 2 1 (EBinary 2%float (EVar 0%float) (EVar 1%float)))
    [2%float; 3%float] 0 [2%float; 3%float; 7%float]
  = Ok [1%float; 7%float]
  ∧ python_forward (U := sample_utils)
      (sample_tree 2 1 (EBinary 1%float (EVar 0%float) (EVar 1%float)))
      [2%float; 3%float]
    = Ok 5%float.
Proof.
  split.
  - exact (proj1 (binary_node_pops_right_then_left (U := sample_utils))
             float _
             (sample_tree 2 1 (EBinary 2%float (EVar 0%float) (EVar 1%float)))
             [2%float; 3%float] 0%nat 3 2%float 2%float 3%float [7%float]
             eq_refl (sample_function_tag 3 (or_intror (or_introl eq_refl)))
             eq_refl).
  - exact (proj2 (binary_node_pops_right_then_left (U := sample_utils))
             1%float sample_tags_distinct eq_refl).
Defined.

(** C4, counterexample.  A binary function node is not always evaluated as
    [left OP right]: with the opcode 5, which [to_infix] prints in function
    style, the interpreter pops the two operands and raises
    [NotImplementedError], and so does the evaluation of the tree of that
    node over two variables. *)
Lemma binary_node_with_other_opcode_raises :
  forward_step (U := sample_utils)
    (sample_tree 2 1 (EBinary 5%float (EVar 0%float) (EVar 1%float)))
    [2%float; 3%float] 0 [2%float; 3%float]
  = Raise NotImplementedError
  ∧ python_forward (U := sample_utils)
      (sample_tree 2 1 (EBinary 5%float (EVar 0%float) (EVar 1%float)))
      [2%float; 3%float]
    = Raise NotImplementedError
  ∧ to_infix (U := sample_utils)
      (sample_tree 2 1 (EBinary 5%float (EVar 0%float) (EVar 1%float)))
    = ([], Ok "pow(x[0],x[1])").
Proof.
  split; [|split].
  - unfold forward_step. vm_compute. reflexivity.
  - unfold python_forward. vm_compute. reflexivity.
  - unfold to_infix. vm_compute. reflexivity.
Qed.

(** C5 (as amended).  A node tagged [UFUNC] or [TFUNC] is read like every
    other function node: the interpreter pops two operands, whatever the
    arity of the tag, raising [IndexError] when fewer than two are on the
    stack; it applies the opcode when it is one of [ADD], [SUB], [MUL], [DIV]
    and raises [NotImplementedError] for every other opcode. *)
Theorem unary_and_ternary_nodes_read_as_binary {F} {SF : Scalar F} {U : Utils}
    (t : Tree F) inputs i ty v operents :
  tags_distinct → ty = NType_UFUNC ∨ ty = NType_TFUNC →
  node_type t !! i = Some ty → node_value t !! i = Some v →
  forward_step t inputs i operents =
    match operents with
    | rhs :: lhs :: rest =>
        match opcode_of v with
        | Some ADD => Ok (fadd lhs rhs :: rest)
        | Some SUB => Ok (fsub lhs rhs :: rest)
        | Some MUL => Ok (fmul lhs rhs :: rest)
        | Some DIV =>
            Ok ((if allclose0 rhs then lhs else fdiv lhs rhs) :: rest)
        | None => Raise NotImplementedError
        end
    | _ => Raise IndexError
    end.
Proof.
  intros Htags Hty Hnt Hv.
  destruct (tags_distinct_cases Htags) as (Hu & _ & Ht & _).
  assert (function_tag ty) as Htag by (by destruct Hty as [-> | ->]).
  rewrite (forward_step_function _ _ _ ty) by done.
  destruct operents as [|rhs [|lhs rest]]; [done..|].
  rewrite (np_get_Some _ _ _ Hv). simpl. rewrite apply_func_opcode.
  by destruct (opcode_of v) as [[]|].
Qed.

Lemma unary_and_ternary_nodes_read_as_binary_witness :
  let t := sample_tree 1 1 (EUnary 12%float (EVar 0%float)) in
  forward_step (U := sample_utils) t [0.5%float] 0 [0.5%float]
  = Raise IndexError
  ∧ forward_step (U := sample_utils) t [0.5%float] 0 [0.5%float; 0.25%float]
    = Raise NotImplementedError.
Proof.
  intros t. split.
  - exact (unary_and_ternary_nodes_read_as_binary (U := sample_utils)
             t [0.5%float] 0%nat 2 12%float [0.5%float]
             sample_tags_distinct (or_introl eq_refl) eq_refl eq_refl).
  - exact (unary_and_ternary_nodes_read_as_binary (U := sample_utils)
             t [0.5%float] 0%nat 2 12%float [0.5%float; 0.25%float]
             sample_tags_distinct (or_introl eq_refl) eq_refl eq_refl).
Defined.

(** C5, counterexample.  Opcode 12 is [sin] in the table.  A [UFUNC] node
    that carries it, with its one operand on the stack, does not push a
    result: the interpreter raises. *)
Lemma sin_node_is_not_applied :
  FUNCS_NAMES (Utils := sample_utils) !! 12%nat = Some "sin"
  ∧ ¬ (∀ (t : Tree float) inputs i a rest,
         node_type t !! i = Some (NType_UFUNC (Utils := sample_utils)) →
         node_value t !! i = Some 12%float →
         ∃ r, forward_step (U := sample_utils) t inputs i (a :: rest)
              = Ok (r :: rest)).
Proof.
  split; [reflexivity|]. intros Hclaim.
  destruct (Hclaim (sample_tree 1 1 (EUnary 12%float (EVar 0%float)))
              [0.5%float] 0%nat 0.5%float [] eq_refl eq_refl) as [r Hr].
  discriminate Hr.
Qed.

(** ** The validator *)

Section Validator.
Context {F : Type} {SF : Scalar F} {U : Utils}.
Implicit Types (t : Tree F).

Lemma init_Ok il ol v ty sz t :
  __init__ il ol v ty sz = Ok t →
  length ty = length v ∧ length sz = length v
  ∧ t = {| input_len := il; output_len := ol; gp_len := length v;
           node_value := v; node_type := ty; subtree_size := sz |}.
Proof.
  intros Hinit.
  destruct (init_checks_lengths_only il ol v ty sz)
    as [(Hty & Hsz & Heq)|[(_ & Heq)|(_ & _ & Heq)]];
    rewrite Heq in Hinit; [|done..].
  by injection Hinit as <-.
Qed.

Lemma forward_step_beyond t inputs i operents :
  node_type t !! i = None →
  forward_step t inputs i operents = Raise IndexError.
Proof.
  intros Hnone. unfold forward_step. by rewrite (np_get_None _ _ Hnone).
Qed.

Lemma python_forward_oversized t size :
  subtree_size t !! 0%nat = Some size →
  Z.of_nat (length (node_type t)) < size →
  python_forward t (replicate (Z.to_nat (input_len t)) fzero)
  = Raise (oversized_error t).
Proof.
  intros Hsize Hlt. unfold python_forward, oversized_error.
  rewrite length_replicate.
  destruct (Z.ltb_spec (input_len t) 0) as [Hneg|Hpos].
  { destruct (Z.eqb_spec (Z.of_nat (Z.to_nat (input_len t))) (input_len t));
      [lia|done]. }
  rewrite Z2Nat.id, Z.eqb_refl by done. simpl.
  destruct (output_len t =? 1); [|done]. simpl.
  rewrite (np_get_Some _ _ _ Hsize). simpl.
  destruct (Z.to_nat size) as [|n] eqn:Hn; [lia|].
  replace size with (Z.of_nat (S n)) by lia.
  rewrite range_down_S. cbn [for_each].
  rewrite forward_step_beyond; [done|]. apply lookup_ge_None. lia.
Qed.

End Validator.

(** C2 (as amended).  A constructed tree whose stored [subtree_size[0]]
    exceeds [gp_len] fails [assert_valid], and the failure is that of the
    interpreter on the all-zero input, which [assert_valid] runs first: an
    [IndexError] at the first slot read when [input_len] is not negative and
    [output_len] is 1, the assertion error of the interpreter's own checks
    otherwise.  The comparison of the stored root size with the recomputed
    one is not reached. *)
Theorem oversized_root_fails_in_the_interpreter {F} {SF : Scalar F}
    {U : Utils} il ol v ty sz (t : Tree F) size :
  __init__ il ol v ty sz = Ok t →
  subtree_size t !! 0%nat = Some size →
  Z.of_nat (gp_len t) < size →
  python_forward t (replicate (Z.to_nat (input_len t)) fzero)
  = Raise (oversized_error t)
  ∧ assert_valid t = Raise (oversized_error t)
  ∧ oversized_error t ≠ AssertionError valid_root_size.
Proof.
  intros Hinit Hsize Hlt.
  assert (length (node_type t) = gp_len t) as Hlen.
  { by destruct (init_Ok _ _ _ _ _ _ Hinit) as (Hty & _ & ->). }
  assert (Z.of_nat (length (node_type t)) < size) as Hlt' by lia.
  pose proof (python_forward_oversized t size Hsize Hlt') as Hfwd.
  split; [done|]. split.
  - unfold assert_valid. by rewrite Hfwd.
  - unfold oversized_error.
    destruct (input_len t <? 0); [done|]. by destruct (output_len t =? 1).
Qed.

Lemma oversized_root_fails_in_the_interpreter_witness :
  let t := corrupt (sample_tree 2 1
                      (EBinary 1%float (EVar 0%float) (EVar 1%float))) 0 5 in
  python_forward (U := sample_utils) t [0%float; 0%float] = Raise IndexError
  ∧ assert_valid (U := sample_utils) t = Raise IndexError
  ∧ IndexError ≠ AssertionError valid_root_size.
Proof.
  intros t.
  exact (oversized_root_fails_in_the_interpreter (U := sample_utils)
           2 1 [1%float; 0%float; 1%float] [3; 0; 0] [5; 1; 1] t 5
           eq_refl eq_refl eq_refl).
Defined.

(** C2, counterexample.  The tree of three slots with the stored root size
    5 fails [assert_valid] with the [IndexError] of the interpreter, not with
    the assertion on the root size. *)
Lemma oversized_root_is_not_a_span_error :
  ¬ (∀ (t : Tree float) size,
       subtree_size t !! 0%nat = Some size → Z.of_nat (gp_len t) < size →
       assert_valid (U := sample_utils) t
       = Raise (AssertionError valid_root_size)).
Proof.
  intros Hclaim.
  specialize (Hclaim (corrupt (sample_tree 2 1
                        (EBinary 1%float (EVar 0%float) (EVar 1%float))) 0 5)
                5 eq_refl eq_refl).
  discriminate Hclaim.
Qed.

(** ** [SR_fitness] *)

Section Fitness.
Context {F T : Type} {TT : Tensors T} {K : Kernels F T}.
Implicit Types (t : Tree F).

Lemma getattr_defined t :
  getattr (T := T) t "gp_len" = Ok (VInt (Z.of_nat (gp_len t)))
  ∧ getattr (T := T) t "input_len" = Ok (VInt (input_len t))
  ∧ getattr (T := T) t "output_len" = Ok (VInt (output_len t)).
Proof. unfold getattr, __dict__. by simplify_map_eq. Qed.

Lemma getattr_batch_node_value t :
  getattr (T := T) t "batch_node_value"
  = Raise (AttributeError "batch_node_value").
Proof. unfold getattr, __dict__. by simplify_map_eq. Qed.

Lemma dict_names t :
  dom (__dict__ (T := T) t)
  = list_to_set ["input_len"; "output_len"; "gp_len"; "node_value";
                 "node_type"; "subtree_size"].
Proof.
  unfold __dict__. rewrite !dom_insert_L, dom_empty_L. set_solver.
Qed.

Lemma SR_fitness_args_raise t inputs labels use_MSE :
  ∃ e, SR_fitness_args t inputs labels use_MSE = Raise e.
Proof.
  unfold SR_fitness_args.
  destruct (check_tensor inputs) as [inputs'|e]; simpl; [|by eexists].
  destruct (check_tensor labels) as [labels'|e]; simpl; [|by eexists].
  destruct (py_index (shape inputs') 0) as [batch_size|e]; simpl;
    [|by eexists].
  destruct (assert _ sr_inputs_shape) as [[]|e]; simpl; [|by eexists].
  destruct (assert _ sr_labels_shape) as [[]|e]; simpl; [|by eexists].
  destruct (getattr_defined t) as (-> & -> & ->). simpl.
  rewrite getattr_batch_node_value. simpl. by eexists.
Qed.

End Fitness.

(** C10.  Whenever the two shape assertions of [SR_fitness] pass, the call
    raises [AttributeError] for [batch_node_value], the first of the three
    attributes it reads that no assignment to [self] defines, and the fitness
    operator is not called; in no case is the operator called.  The
    attributes of an instance are the six that [__init__] assigns. *)
Theorem SR_fitness_raises_AttributeError {F T} {TT : Tensors T}
    {K : Kernels F T} (t : Tree F) (inputs labels inputs' labels' : T)
    (use_MSE : bool) (batch_size : nat) :
  check_tensor inputs = Ok inputs' →
  check_tensor labels = Ok labels' →
  Z.of_nat <$> shape inputs' = [Z.of_nat batch_size; input_len t] →
  Z.of_nat <$> shape labels' = [Z.of_nat batch_size; output_len t] →
  SR_fitness t inputs labels use_MSE
  = ([], Raise (AttributeError "batch_node_value"))
  ∧ (∀ x y m, (SR_fitness t x y m).1 = [])
  ∧ dom (__dict__ (T := T) t)
    = list_to_set ["input_len"; "output_len"; "gp_len"; "node_value";
                   "node_type"; "subtree_size"].
Proof.
  intros Hinputs Hlabels Hsi Hsl. split; [|split].
  - unfold SR_fitness, SR_fitness_args.
    rewrite Hinputs. simpl. rewrite Hlabels. simpl.
    destruct (shape inputs') as [|b [|n [|]]] eqn:Hshape; try done.
    injection Hsi as Hb Hn. apply Nat2Z.inj in Hb. subst b.
    change 0 with (Z.of_nat 0). rewrite py_index_nat. simpl.
    rewrite Hn, !bool_decide_eq_true_2 by done. simpl.
    destruct (getattr_defined (T := T) t) as (-> & -> & ->). simpl.
    by rewrite getattr_batch_node_value.
  - intros x y m. unfold SR_fitness.
    by destruct (SR_fitness_args_raise t x y m) as [e ->].
  - apply dict_names.
Qed.

Lemma SR_fitness_raises_AttributeError_witness :
  SR_fitness (TT := shape_tensors) (K := constant_kernels)
    (sample_tree 2 1 (EBinary 1%float (EVar 0%float) (EVar 1%float)))
    [8; 2]%nat [8; 1]%nat true
  = ([], Raise (AttributeError "batch_node_value")).
Proof.
  exact (proj1 (SR_fitness_raises_AttributeError
                  (TT := shape_tensors) (K := constant_kernels)
                  (sample_tree 2 1
                     (EBinary 1%float (EVar 0%float) (EVar 1%float)))
                  [8; 2]%nat [8; 1]%nat [8; 2]%nat [8; 1]%nat true 8
                  eq_refl eq_refl eq_refl eq_refl)).
Defined.

(** ** Encodings *)

Lemma tags_distinct_ne {U : Utils} :
  tags_distinct →
  NType_VAR ≠ NType_CONST ∧ NType_VAR ≠ NType_UFUNC
  ∧ NType_VAR ≠ NType_BFUNC ∧ NType_VAR ≠ NType_TFUNC
  ∧ NType_CONST ≠ NType_UFUNC ∧ NType_CONST ≠ NType_BFUNC
  ∧ NType_CONST ≠ NType_TFUNC ∧ NType_UFUNC ≠ NType_BFUNC
  ∧ NType_UFUNC ≠ NType_TFUNC ∧ NType_BFUNC ≠ NType_TFUNC.
Proof.
  unfold tags_distinct.
  rewrite !NoDup_cons, !not_elem_of_cons. intuition congruence.
Qed.

(** Decides the comparisons of one tag with another in the goal. *)
Ltac tag_cases Htags :=
  let Hne := fresh "Hne" in
  pose proof (tags_distinct_ne Htags) as Hne;
  rewrite ?Z.eqb_refl;
  repeat match goal with
  | |- context [?a =? ?b] =>
      destruct (Z.eqb_spec a b) as [?|_]; [exfalso; intuition congruence|]
  end;
  clear Hne.

Section Encodings.
Context {F : Type} {SF : Scalar F} {U : Utils}.
Implicit Types (e : expr F) (slots : list (node F)).

Lemma encode_head e :
  ∃ ty v tail,
    encode e = Node ty v (Z.of_nat (length (encode e))) :: tail.
Proof.
  destruct e; simpl; eexists _, _, _; f_equal; f_equal;
    rewrite ?length_app; lia.
Qed.

Lemma zip_fmap_same {A B C} (f : A → B) (g : A → C) (l : list A) :
  zip (f <$> l) (g <$> l) = (λ x, (f x, g x)) <$> l.
Proof. induction l as [|x l IH]; [done|]. simpl. f_equal. exact IH. Qed.

Lemma slice_to_encoding {A} (l padding : list A) :
  slice_to (l ++ padding) (Z.of_nat (length l)) = l.
Proof.
  unfold slice_to. destruct (Z.ltb_spec (Z.of_nat (length l)) 0); [lia|].
  rewrite Nat2Z.id. by rewrite take_app_length.
Qed.

End Encodings.

(** ** The serializers *)

Section Serializer.
Context {F : Type} {SF : Scalar F} {U : Utils}.
Implicit Types (e : expr F) (t : Tree F) (stack : list string).

(** The loop of [to_infix] over the slots of an encoding pushes the string
    of the expression. *)
Lemma infix_loop_encode e s stack :
  tags_distinct → infix_expr e = Ok s →
  for_each (λ tv, infix_step tv.1 tv.2) (reverse (tagged <$> encode e)) stack
  = Ok (s :: stack).
Proof.
  intros Htags. revert s stack.
  induction e as [v|v|v c1 IH1|v c1 IH1 c2 IH2|v c1 IH1 c2 IH2 c3 IH3];
    intros s stack Hs; simpl in Hs; cbn [encode].
  - destruct (to_int v) as [k|] eqn:Hk; [|done]. injection Hs as <-.
    simpl. unfold infix_step. tag_cases Htags. by rewrite Hk.
  - injection Hs as <-. simpl. unfold infix_step. by tag_cases Htags.
  - destruct (infix_expr c1) as [a|]; [|done]. simpl in Hs.
    destruct (to_int v) as [k|] eqn:Hk; [|done]. simpl in Hs.
    destruct (py_index FUNCS_DISPLAY k) as [f|] eqn:Hf; [|done].
    injection Hs as <-.
    rewrite fmap_cons, reverse_cons, for_each_snoc, (IH1 a) by done.
    simpl. unfold infix_step. tag_cases Htags. rewrite Hk. simpl.
    by rewrite Hf.
  - destruct (infix_expr c2) as [b|]; [|done]. simpl in Hs.
    destruct (infix_expr c1) as [a|]; [|done]. simpl in Hs.
    destruct (to_int v) as [k|] eqn:Hk; [|done]. simpl in Hs.
    destruct (py_index FUNCS_DISPLAY k) as [f|] eqn:Hf; [|done].
    simpl in Hs.
    rewrite fmap_cons, reverse_cons, for_each_snoc, fmap_app, reverse_app.
    rewrite for_each_app, (IH2 b) by done. simpl.
    rewrite (IH1 a) by done. simpl.
    unfold infix_step. tag_cases Htags. rewrite Hk. simpl.
    destruct (bool_decide (k ∈ [5; 6; 7])); injection Hs as <-.
    + by rewrite Hf.
    + simpl. by rewrite Hf.
  - destruct (infix_expr c3) as [c|]; [|done]. simpl in Hs.
    destruct (infix_expr c2) as [b|]; [|done]. simpl in Hs.
    destruct (infix_expr c1) as [a|]; [|done]. simpl in Hs.
    destruct (to_int v) as [k|] eqn:Hk; [|done]. simpl in Hs.
    destruct (py_index FUNCS_DISPLAY k) as [f|] eqn:Hf; [|done].
    injection Hs as <-.
    rewrite fmap_cons, reverse_cons, for_each_snoc, !fmap_app, !reverse_app.
    rewrite !for_each_app, (IH3 c) by done. simpl.
    rewrite (IH2 b) by done. simpl. rewrite (IH1 a) by done. simpl.
    unfold infix_step. tag_cases Htags. rewrite Hk. simpl. by rewrite Hf.
Qed.

(** [to_infix] on a tree whose root span is the encoding of [e]. *)
Lemma infix_pass_encode il ol e padding s :
  tags_distinct → infix_expr e = Ok s →
  infix_pass (tree_of il ol (encode e ++ padding)) = Ok s.
Proof.
  intros Htags Hs. unfold infix_pass.
  cbn [subtree_size node_type node_value tree_of].
  destruct (encode_head e) as (ty & v & tail & Henc).
  assert (np_get (n_size <$> encode e ++ padding) 0
          = Ok (Z.of_nat (length (encode e)))) as ->.
  { by rewrite Henc at 1. }
  simpl. rewrite !fmap_app.
  rewrite <- (length_fmap n_type (encode e)) at 1.
  rewrite slice_to_encoding.
  rewrite <- (length_fmap n_value (encode e)) at 1.
  rewrite slice_to_encoding.
  rewrite <- !fmap_reverse, zip_fmap_same, fmap_reverse.
  change (λ x : node F, (n_type x, n_value x)) with (@tagged F).
  by rewrite (infix_loop_encode e s).
Qed.

End Serializer.

(** What [to_infix] does at an infix-style binary node, one whose opcode is
    not 5, 6 or 7: the string popped first is printed on the left of the
    operator and the string popped second on the right.  The tree of one
    [ADD] node over the variables 0 and 1 is printed as [(x[0] + x[1])]. *)
Lemma infix_binary_prints_in_pop_order {F} {SF : Scalar F} {U : Utils}
    (v : F) (k : Z) (f first second : string) (rest : list string) :
  tags_distinct → to_int v = Ok k → k ∉ [5; 6; 7] →
  py_index FUNCS_DISPLAY k = Ok f →
  infix_step NType_BFUNC v (first :: second :: rest)
  = Ok (("(" +:+ first +:+ " " +:+ f +:+ " " +:+ second +:+ ")") :: rest)
  ∧ (∀ il v0 v1, to_int v0 = Ok 0 → to_int v1 = Ok 1 → f = "+" →
     to_infix (tree_of il 1 [Node NType_BFUNC v 3; Node NType_VAR v0 1;
                             Node NType_VAR v1 1])
     = ([], Ok "(x[0] + x[1])")).
Proof.
  intros Htags Hk Hnot Hf. split.
  - unfold infix_step. tag_cases Htags. rewrite Hk. simpl.
    rewrite bool_decide_eq_false_2 by done. simpl. by rewrite Hf.
  - intros il v0 v1 H0 H1 ->. unfold to_infix. cbn [output_len tree_of].
    f_equal.
    apply (infix_pass_encode il 1 (EBinary v (EVar v0) (EVar v1)) []);
      [done|].
    simpl. rewrite H1, H0. simpl. rewrite Hk. simpl. rewrite Hf. simpl.
    by rewrite bool_decide_eq_false_2 by done.
Qed.


(** C1, the defect.  For the tree of one [SUB] node followed by the
    variables 0 and 1, which [assert_valid] accepts, [to_infix] prints
    [(x[0] - x[1])]: the string popped first, that of the slot right after
    the node, is on the left.  [python_forward] takes the value popped first
    as the right operand, as its comments say, and evaluates the same tree
    to [x[1] - x[0]]: -2.0 at the inputs 5.0 and 3.0, where the printed
    expression is worth 2.0. *)
Theorem to_infix_prints_the_right_operand_first :
  to_infix (U := sample_utils)
    (sample_tree 2 1 (EBinary 2%float (EVar 0%float) (EVar 1%float)))
  = ([], Ok "(x[0] - x[1])")
  ∧ python_forward (U := sample_utils)
      (sample_tree 2 1 (EBinary 2%float (EVar 0%float) (EVar 1%float)))
      [5%float; 3%float]
    = Ok (-2)%float
  ∧ assert_valid (U := sample_utils)
      (sample_tree 2 1 (EBinary 2%float (EVar 0%float) (EVar 1%float)))
    = Ok ().
Proof.
  split; [|split].
  - unfold to_infix. vm_compute. reflexivity.
  - unfold python_forward. vm_compute. reflexivity.
  - unfold assert_valid. vm_compute. reflexivity.
Qed.

(** C9 (as amended).  When [output_len] is not 1, [to_infix] prints its
    warning and goes on: what it returns or raises is what the reverse pass
    over the arrays returns or raises, which does not depend on
    [output_len]; when the root span of the tree is the encoding of an
    expression that can be printed, it does not raise and returns the string
    of the expression. *)
Theorem to_infix_warns_and_renders {F} {SF : Scalar F} {U : Utils}
    (t : Tree F) :
  output_len t ≠ 1 →
  (to_infix t).1 = [Printed infix_warning]
  ∧ (∀ t', node_value t' = node_value t → node_type t' = node_type t →
           subtree_size t' = subtree_size t →
           (to_infix t).2 = (to_infix t').2)
  ∧ (∀ e padding s, tags_distinct →
       t = tree_of (input_len t) (output_len t) (encode e ++ padding) →
       infix_expr e = Ok s →
       to_infix t = ([Printed infix_warning], Ok s)).
Proof.
  intros Hout.
  assert ((to_infix t).1 = [Printed infix_warning]) as Hwarn.
  { unfold to_infix. simpl. by destruct (Z.eqb_spec (output_len t) 1). }
  split; [done|]. split.
  - intros t' Hv Hty Hsz. unfold to_infix, infix_pass. simpl.
    by rewrite Hv, Hty, Hsz.
  - intros e padding s Htags Ht Hs.
    rewrite (surjective_pairing (to_infix t)), Hwarn. f_equal.
    unfold to_infix. simpl. rewrite Ht. by apply infix_pass_encode.
Qed.

Lemma to_infix_warns_and_renders_witness :
  to_infix (U := sample_utils)
    (sample_tree 2 3 (EBinary 5%float (EVar 0%float)
                        (EUnary 12%float (EVar 1%float))))
  = ([Printed infix_warning], Ok "pow(x[0],sin(x[1]))").
Proof.
  assert ((3 : Z) ≠ 1) as Hout by discriminate.
  exact (proj2 (proj2 (to_infix_warns_and_renders (U := sample_utils)
                         (sample_tree 2 3
                            (EBinary 5%float (EVar 0%float)
                               (EUnary 12%float (EVar 1%float))))
                         Hout))
           (EBinary 5%float (EVar 0%float) (EUnary 12%float (EVar 1%float)))
           [] "pow(x[0],sin(x[1]))" sample_tags_distinct eq_refl eq_refl).
Defined.

(** C9, counterexample.  A tree with three outputs whose stored root size is
    0: [to_infix] prints the warning, slices nothing, and raises [IndexError]
    at the [pop] of the empty stack. *)
Lemma to_infix_warns_and_raises :
  to_infix (U := sample_utils)
    (tree_of 2 3 [Node 0 0%float 0])
  = ([Printed infix_warning], Raise IndexError).
Proof. unfold to_infix. vm_compute. reflexivity. Qed.

(** ** Padding *)

Section Padding.
Context {F : Type} {SF : Scalar F} {U : Utils}.
Implicit Types (t : Tree F).





End Padding.




(** ** Validation of encodings *)

Section Validation.
Context {F : Type} {SF : Scalar F} {U : Utils}.
Implicit Types (e : expr F) (t : Tree F) (slots : list (node F)).

Lemma holds_at_cons t p nd slots :
  holds_at t p (nd :: slots) →
  node_type t !! p = Some (n_type nd)
  ∧ node_value t !! p = Some (n_value nd)
  ∧ subtree_size t !! p = Some (n_size nd)
  ∧ holds_at t (S p) slots.
Proof.
  intros Hat. pose proof (Hat 0%nat nd eq_refl) as H0.
  rewrite Nat.add_0_r in H0. destruct H0 as (? & ? & ?).
  split; [done|]. split; [done|]. split; [done|].
  intros j nd' Hj. replace (S p + j)%nat with (p + S j)%nat by lia.
  by apply Hat.
Qed.

Lemma holds_at_app t p slots1 slots2 :
  holds_at t p (slots1 ++ slots2) →
  holds_at t p slots1 ∧ holds_at t (p + length slots1) slots2.
Proof.
  intros Hat. split; intros j nd Hj.
  - apply Hat. by apply lookup_app_l_Some.
  - rewrite <- Nat.add_assoc. apply Hat.
    rewrite lookup_app_r by lia. by rewrite Nat.add_comm, Nat.add_sub.
Qed.

Lemma holds_at_tree_of il ol slots padding :
  holds_at (tree_of il ol (slots ++ padding)) 0 slots.
Proof.
  intros j nd Hj. simpl.
  rewrite !list_lookup_fmap, (lookup_app_l_Some _ _ _ _ Hj). done.
Qed.

Lemma apply_func_arith v op1 op2 :
  arith_opcode v = true → ∃ r, apply_func v op1 op2 = Ok r.
Proof.
  unfold arith_opcode, apply_func. intros Hv.
  destruct (eq_int v Func_ADD); [by eexists|].
  destruct (eq_int v Func_SUB); [by eexists|].
  destruct (eq_int v Func_MUL); [by eexists|].
  destruct (eq_int v Func_DIV); [|done].
  destruct (allclose0 op1); by eexists.
Qed.

(** The interpreter's loop over the slots of an arithmetic expression pushes
    one value. *)
Lemma forward_loop_encode t inputs e p operents :
  tags_distinct → arithmetic e →
  vars_in_range (Z.of_nat (length inputs)) e →
  holds_at t p (encode e) →
  ∃ r, for_each (forward_step t inputs)
         (reverse (seq p (length (encode e)))) operents
       = Ok (r :: operents).
Proof.
  intros Htags. revert p operents.
  induction e as [v|v|v c1 IH1|v c1 IH1 c2 IH2|v c1 IH1 c2 IH2 c3 IH3];
    intros p operents Harith Hvars Hat; cbn [encode] in *; try done.
  - destruct (holds_at_cons _ _ _ _ Hat) as (Hty & Hv & _ & _).
    destruct Hvars as (k & Hk & Hrange).
    destruct (lookup_lt_is_Some_2 inputs (Z.to_nat k)) as [x Hx]; [lia|].
    exists x. simpl.
    rewrite (forward_step_var _ _ _ v k x); [done..|].
    replace k with (Z.of_nat (Z.to_nat k)) by lia.
    rewrite py_index_nat. by apply np_get_Some.
  - destruct (holds_at_cons _ _ _ _ Hat) as (Hty & Hv & _ & _).
    destruct (tags_distinct_cases Htags) as (_ & _ & _ & Hcv).
    exists v. simpl. by rewrite (forward_step_const _ _ _ v).
  - destruct Harith as (Hop & Ha1 & Ha2). destruct Hvars as [Hv1 Hv2].
    destruct (holds_at_cons _ _ _ _ Hat) as (Hty & Hv & _ & Hrest).
    destruct (holds_at_app _ _ _ _ Hrest) as [Hat1 Hat2].
    simpl length. rewrite length_app.
    change (S (length (encode c1) + length (encode c2)))
      with (1 + (length (encode c1) + length (encode c2)))%nat.
    rewrite !reverse_seq_app, !for_each_app.
    replace (p + 1)%nat with (S p) by lia.
    destruct (IH2 (S p + length (encode c1))%nat operents Ha2 Hv2 Hat2)
      as [r2 ->]. simpl.
    destruct (IH1 (S p) (r2 :: operents) Ha1 Hv1 Hat1) as [r1 ->]. simpl.
    destruct (tags_distinct_cases Htags) as (_ & Htag & _ & _).
    rewrite (forward_step_function _ _ _ NType_BFUNC) by done.
    rewrite (np_get_Some _ _ _ Hv). simpl.
    destruct (apply_func_arith v r1 r2 Hop) as [r ->]. by exists r.
Qed.

(** The walk of [assert_valid] over the tags of an encoding ends at the end
    of the encoding when one subtree is wanted, and goes on with one subtree
    less otherwise. *)
Lemma root_size_loop_encode e rest needed idx :
  tags_distinct → 1 ≤ needed →
  root_size_loop (n_type <$> (encode e ++ rest)) needed idx
  = if needed =? 1 then Ok (idx + length (encode e))%nat
    else root_size_loop (n_type <$> rest) (needed - 1)
           (idx + length (encode e)).
Proof.
  intros Htags. revert rest needed idx.
  induction e as [v|v|v c1 IH1|v c1 IH1 c2 IH2|v c1 IH1 c2 IH2 c3 IH3];
    intros rest needed idx Hneeded; cbn [encode].
  - simpl. tag_cases Htags. rewrite Nat.add_1_r.
    destruct (Z.eqb_spec (needed - 1) 0), (Z.eqb_spec needed 1);
      done || lia.
  - simpl. tag_cases Htags. rewrite Nat.add_1_r.
    destruct (Z.eqb_spec (needed - 1) 0), (Z.eqb_spec needed 1);
      done || lia.
  - simpl. tag_cases Htags.
    destruct (Z.eqb_spec (needed - 1 + 1) 0); [lia|].
    rewrite IH1 by lia. replace (needed - 1 + 1) with needed by lia.
    by rewrite Nat.add_succ_r.
  - simpl. tag_cases Htags.
    destruct (Z.eqb_spec (needed - 1 + 2) 0); [lia|].
    rewrite <- app_assoc, IH1 by lia.
    destruct (Z.eqb_spec (needed - 1 + 2) 1); [lia|].
    rewrite IH2 by lia.
    replace (needed - 1 + 2 - 1) with needed by lia.
    rewrite length_app.
    by replace (S idx + length (encode c1) + length (encode c2))%nat
      with (idx + S (length (encode c1) + length (encode c2)))%nat by lia.
  - simpl. tag_cases Htags.
    destruct (Z.eqb_spec (needed - 1 + 3) 0); [lia|].
    rewrite <- !app_assoc, IH1 by lia.
    destruct (Z.eqb_spec (needed - 1 + 3) 1); [lia|].
    rewrite IH2 by lia.
    destruct (Z.eqb_spec (needed - 1 + 3 - 1) 1); [lia|].
    rewrite IH3 by lia.
    replace (needed - 1 + 3 - 1 - 1) with needed by lia.
    rewrite !length_app.
    by replace (S idx + length (encode c1) + length (encode c2)
                + length (encode c3))%nat
      with (idx + S (length (encode c1)
                     + (length (encode c2) + length (encode c3))))%nat
      by lia.
Qed.

Lemma size_step_ok t i ty stored size operents operents' :
  node_type t !! i = Some ty → subtree_size t !! i = Some stored →
  slot_size ty operents = Ok (size, operents') → stored = size →
  size_step t i operents = Ok (size :: operents').
Proof.
  intros Hty Hstored Hsize ->. unfold size_step.
  rewrite (np_get_Some _ _ _ Hty). simpl. rewrite Hsize. simpl.
  rewrite (np_get_Some _ _ _ Hstored). simpl. by rewrite Z.eqb_refl.
Qed.

Ltac size_pushed := cbn [mbind result_bind]; f_equal; f_equal; lia.

(** The second loop of [assert_valid] over the slots of an encoding pushes
    the length of the encoding. *)
Lemma size_loop_encode t e p operents :
  tags_distinct → holds_at t p (encode e) →
  for_each (size_step t) (reverse (seq p (length (encode e)))) operents
  = Ok (Z.of_nat (length (encode e)) :: operents).
Proof.
  intros Htags. revert p operents.
  induction e as [v|v|v c1 IH1|v c1 IH1 c2 IH2|v c1 IH1 c2 IH2 c3 IH3];
    intros p operents Hat; cbn [encode] in *;
    destruct (holds_at_cons _ _ _ _ Hat) as (Hty & _ & Hsz & Hrest);
    cbn [n_type n_size] in *.
  - simpl.
    rewrite (size_step_ok _ _ _ _ 1 operents operents Hty Hsz); try done.
    unfold slot_size. by tag_cases Htags.
  - simpl.
    rewrite (size_step_ok _ _ _ _ 1 operents operents Hty Hsz); try done.
    unfold slot_size. by tag_cases Htags.
  - simpl length.
    change (S (length (encode c1))) with (1 + length (encode c1))%nat.
    rewrite reverse_seq_app, for_each_app.
    replace (p + 1)%nat with (S p) by lia.
    rewrite (IH1 (S p) operents Hrest). simpl.
    rewrite (size_step_ok _ _ _ _ (Z.of_nat (length (encode c1)) + 1)
               _ operents Hty Hsz); [size_pushed| |lia].
    unfold slot_size. by tag_cases Htags.
  - destruct (holds_at_app _ _ _ _ Hrest) as [Hat1 Hat2].
    simpl length. rewrite length_app.
    change (S (length (encode c1) + length (encode c2)))
      with (1 + (length (encode c1) + length (encode c2)))%nat.
    rewrite !reverse_seq_app, !for_each_app.
    replace (p + 1)%nat with (S p) by lia.
    rewrite (IH2 _ operents Hat2). simpl.
    rewrite (IH1 (S p) _ Hat1). simpl.
    rewrite (size_step_ok _ _ _ _
               (Z.of_nat (length (encode c1)) + Z.of_nat (length (encode c2))
                + 1) _ operents Hty Hsz); [size_pushed| |lia].
    unfold slot_size. by tag_cases Htags.
  - destruct (holds_at_app _ _ _ _ Hrest) as [Hat1 Hrest'].
    destruct (holds_at_app _ _ _ _ Hrest') as [Hat2 Hat3].
    simpl length. rewrite !length_app.
    change (S (length (encode c1)
               + (length (encode c2) + length (encode c3))))
      with (1 + (length (encode c1)
                 + (length (encode c2) + length (encode c3))))%nat.
    rewrite !reverse_seq_app, !for_each_app.
    replace (p + 1)%nat with (S p) by lia.
    rewrite (IH3 _ operents Hat3). simpl.
    rewrite (IH2 _ _ Hat2). simpl.
    rewrite (IH1 (S p) _ Hat1). simpl.
    rewrite (size_step_ok _ _ _ _
               (Z.of_nat (length (encode c1)) + Z.of_nat (length (encode c2))
                + Z.of_nat (length (encode c3)) + 1)
               _ operents Hty Hsz); [size_pushed| |lia].
    unfold slot_size. by tag_cases Htags.
Qed.

(** [assert_valid] passes on the encodings of arithmetic expressions. *)
Lemma assert_valid_arithmetic t e :
  tags_distinct → encodes t e → arithmetic e →
  output_len t = 1 → 0 ≤ input_len t →
  assert_valid t = Ok ().
Proof.
  intros Htags (padding & Ht & Hvars) Harith Hout Hin.
  pose proof (holds_at_tree_of (input_len t) (output_len t) (encode e) padding)
    as Hat.
  rewrite <- Ht in Hat.
  destruct (encode_head e) as (ty & v & tail & Henc).
  assert (subtree_size t !! 0%nat = Some (Z.of_nat (length (encode e))))
    as Hroot.
  { pose proof Hat as Hat'. rewrite Henc in Hat'.
    by destruct (holds_at_cons _ _ _ _ Hat') as (_ & _ & ? & _). }
  unfold assert_valid.
  set (dummy := replicate (Z.to_nat (input_len t)) fzero).
  assert (Z.of_nat (length dummy) = input_len t) as Hlen.
  { unfold dummy. rewrite length_replicate. lia. }
  assert (∃ r, python_forward t dummy = Ok r) as [r ->].
  { unfold python_forward. rewrite Hlen, Hout, !Z.eqb_refl. simpl.
    rewrite (np_get_Some _ _ _ Hroot). simpl.
    unfold range_down. rewrite Nat2Z.id.
    destruct (forward_loop_encode t dummy e 0 [] Htags Harith) as [r ->];
      [by rewrite Hlen|done|].
    simpl. by exists r. }
  simpl.
  assert (root_size_loop (node_type t) 1 0 = Ok (length (encode e))) as ->.
  { rewrite Ht. cbn [node_type tree_of].
    by rewrite (root_size_loop_encode e padding 1 0 Htags). }
  simpl. rewrite (np_get_Some _ _ _ Hroot). simpl. rewrite Z.eqb_refl. simpl.
  unfold range_down. rewrite Nat2Z.id.
  by rewrite (size_loop_encode t e 0 [] Htags Hat).
Qed.

(** Overwriting an entry of [subtree_size] other than the first changes
    nothing for the interpreter. *)
Lemma python_forward_corrupt t i z inputs :
  (0 < i)%nat →
  python_forward (corrupt t i z) inputs = python_forward t inputs.
Proof.
  intros Hi. unfold python_forward, np_get.
  cbn [corrupt input_len output_len subtree_size].
  by rewrite list_lookup_insert_ne by lia.
Qed.

Lemma size_step_corrupt_other t i z j operents :
  i ≠ j → size_step (corrupt t i z) j operents = size_step t j operents.
Proof.
  intros Hij. unfold size_step, np_get. cbn [corrupt node_type subtree_size].
  by rewrite list_lookup_insert_ne by done.
Qed.

Lemma size_step_corrupt_same t i z old operents operents' :
  subtree_size t !! i = Some old → z ≠ old →
  size_step t i operents = Ok operents' →
  size_step (corrupt t i z) i operents
  = Raise (AssertionError (valid_subtree_size i)).
Proof.
  intros Hold Hz. unfold size_step, np_get.
  cbn [corrupt node_type subtree_size].
  rewrite list_lookup_insert_eq by (by eapply lookup_lt_Some).
  rewrite Hold.
  destruct (node_type t !! i) as [ty|]; [|done]. simpl.
  destruct (slot_size ty operents) as [[size rest]|]; [|done]. simpl.
  destruct (Z.eqb_spec old size) as [->|]; [|done]. intros _.
  by destruct (Z.eqb_spec z size).
Qed.

(** In a tree that passes [assert_valid], an entry of [subtree_size] inside
    the root span, other than the first, that is overwritten with a different
    number is found by the assertion on that entry. *)
Lemma assert_valid_corrupt t i z size old :
  assert_valid t = Ok () →
  subtree_size t !! 0%nat = Some size →
  (0 < i)%nat → Z.of_nat i < size →
  subtree_size t !! i = Some old → z ≠ old →
  assert_valid (corrupt t i z) = Raise (AssertionError (valid_subtree_size i)).
Proof.
  intros Hvalid Hsize Hi Hspan Hold Hz. unfold assert_valid in Hvalid.
  destruct (python_forward t _) as [r|] eqn:Hfwd; [|done]. simpl in Hvalid.
  destruct (root_size_loop (node_type t) 1 0) as [n|] eqn:Hn; [|done].
  simpl in Hvalid. rewrite (np_get_Some _ _ _ Hsize) in Hvalid.
  simpl in Hvalid.
  destruct (Z.eqb_spec size (Z.of_nat n)) as [->|]; [|done]. simpl in Hvalid.
  destruct (for_each (size_step t) (range_down (Z.of_nat n)) [])
    as [ops|] eqn:Hloop; [|done].
  clear Hvalid. unfold assert_valid.
  cbn [corrupt input_len]. rewrite python_forward_corrupt, Hfwd by done.
  cbn [mbind result_bind].
  change (node_type (corrupt t i z)) with (node_type t). rewrite Hn.
  cbn [mbind result_bind].
  assert (np_get (subtree_size (corrupt t i z)) 0 = Ok (Z.of_nat n)) as ->.
  { unfold np_get. cbn [corrupt subtree_size].
    by rewrite list_lookup_insert_ne, Hsize by lia. }
  cbn [mbind result_bind]. rewrite Z.eqb_refl. cbn [assert mbind result_bind].
  unfold range_down in *. rewrite Nat2Z.id in *.
  replace n with (i + (1 + (n - S i)))%nat in * by lia.
  rewrite !reverse_seq_app, !for_each_app in *.
  rewrite (for_each_ext (size_step (corrupt t i z)) (size_step t)).
  2:{ intros j st. rewrite elem_of_reverse, elem_of_seq. intros Hj.
      apply size_step_corrupt_other. lia. }
  destruct (for_each (size_step t) _ []) as [st1|]; [|done].
  cbn [mbind result_bind] in *. rewrite Nat.add_0_l in *.
  cbn [seq reverse rev_append for_each] in *.
  destruct (size_step t i st1) as [st2|] eqn:Hstep; [|done].
  by rewrite (size_step_corrupt_same t i z old st1 st2).
Qed.

End Validation.

(** C6 (as amended).  [assert_valid] succeeds on every valid tree with one
    output and an input length that is not negative whose function nodes are
    all binary with one of the opcodes [ADD], [SUB], [MUL], [DIV]; and
    whenever [assert_valid] succeeds on a tree, overwriting one entry of
    [subtree_size] at an index inside the root span other than 0 with a
    different number makes it fail with the assertion on the entry at that
    index. *)
Theorem validate_accepts_and_detects {F} {SF : Scalar F} {U : Utils}
    (t : Tree F) :
  tags_distinct →
  (∀ e, encodes t e → arithmetic e → output_len t = 1 → 0 ≤ input_len t →
        assert_valid t = Ok ())
  ∧ (assert_valid t = Ok () →
     ∀ (i : nat) z size old,
       subtree_size t !! 0%nat = Some size →
       (0 < i)%nat → Z.of_nat i < size →
       subtree_size t !! i = Some old → z ≠ old →
       assert_valid (corrupt t i z)
       = Raise (AssertionError (valid_subtree_size i))).
Proof.
  intros Htags. split.
  - intros e Henc Harith Hout Hin. by apply (assert_valid_arithmetic t e).
  - intros Hvalid i z size old Hsize Hi Hspan Hold Hz.
    by apply (assert_valid_corrupt t i z size old).
Qed.

Lemma validate_accepts_and_detects_witness :
  let e := EBinary 2%float (EVar 0%float)
             (EBinary 4%float (EConst 0.5%float) (EVar 1%float)) in
  assert_valid (U := sample_utils) (sample_tree 2 1 e) = Ok ()
  ∧ assert_valid (U := sample_utils) (corrupt (sample_tree 2 1 e) 2 5)
    = Raise (AssertionError (valid_subtree_size 2)).
Proof.
  intros e.
  destruct (validate_accepts_and_detects (U := sample_utils)
              (sample_tree 2 1 e) sample_tags_distinct) as [Hok Hbad].
  assert (assert_valid (U := sample_utils) (sample_tree 2 1 e) = Ok ())
    as Hvalid.
  { apply (Hok e); [|done|done|done].
    exists []. split; [done|]. simpl.
    split; [exists 0|split; [done|exists 1]]; done. }
  split; [exact Hvalid|].
  apply (Hbad Hvalid 2%nat 5 5 3); [done|lia|done|done|done].
Defined.

(** C6, counterexample.  The encoding of [sin(x[0])] is a valid tree that
    [assert_valid] rejects, with the [IndexError] of the interpreter; and in
    the valid tree of [x[0] + x[1]], which it accepts, the entry at index 0
    overwritten with 2 is not reported by the assertion on entry 0: the
    interpreter raises before. *)
Lemma valid_tree_rejected_and_root_entry_unreported :
  ¬ (∀ t : Tree float,
       valid_tree (U := sample_utils) t →
       assert_valid (U := sample_utils) t = Ok ())
  ∧ ¬ (∀ (t : Tree float) (i : nat) z size old,
         valid_tree (U := sample_utils) t →
         subtree_size t !! 0%nat = Some size → Z.of_nat i < size →
         subtree_size t !! i = Some old → z ≠ old →
         assert_valid (U := sample_utils) (corrupt t i z)
         = Raise (AssertionError (valid_subtree_size i))).
Proof.
  split; intros Hclaim.
  - specialize (Hclaim (sample_tree 1 1 (EUnary 12%float (EVar 0%float)))).
    discriminate Hclaim.
    exists (EUnary 12%float (EVar 0%float)), []. split; [done|].
    simpl. by exists 0.
  - specialize (Hclaim
      (sample_tree 2 1 (EBinary 1%float (EVar 0%float) (EVar 1%float)))
      0%nat 2 3 3).
    discriminate Hclaim; try done.
    exists (EBinary 1%float (EVar 0%float) (EVar 1%float)), [].
    split; [done|]. simpl. split; [by exists 0|by exists 1].
Qed.

(** * Further properties *)

(** ** The interpreter on encodings *)

Section Evaluation.
Context {F : Type} {SF : Scalar F} {U : Utils}.
Implicit Types (e : expr F) (t : Tree F) (inputs operents : list F).

(** The loop of [python_forward] over the slots of an expression without
    unary and ternary nodes pushes its value, or raises what its evaluation
    raises. *)
Lemma forward_loop_eval t inputs e p operents :
  tags_distinct → binary_only e → holds_at t p (encode e) →
  for_each (forward_step t inputs)
    (reverse (seq p (length (encode e)))) operents
  = (r ← eval_expr inputs e; Ok (r :: operents)).
Proof.
  intros Htags. revert p operents.
  induction e as [v|v|v c1 IH1|v c1 IH1 c2 IH2|v c1 IH1 c2 IH2 c3 IH3];
    intros p operents Hbin Hat; cbn [encode eval_expr] in *; try done.
  - destruct (holds_at_cons _ _ _ _ Hat) as (Hty & Hv & _ & _).
    simpl. unfold forward_step.
    rewrite (np_get_Some _ _ _ Hty). simpl. rewrite Z.eqb_refl.
    rewrite (np_get_Some _ _ _ Hv). simpl.
    destruct (to_int v) as [k|]; [|done]. simpl.
    by destruct (np_index inputs k).
  - destruct (holds_at_cons _ _ _ _ Hat) as (Hty & Hv & _ & _).
    destruct (tags_distinct_cases Htags) as (_ & _ & _ & Hcv).
    simpl. by rewrite (forward_step_const _ _ _ v).
  - destruct Hbin as [Hb1 Hb2].
    destruct (holds_at_cons _ _ _ _ Hat) as (Hty & Hv & _ & Hrest).
    destruct (holds_at_app _ _ _ _ Hrest) as [Hat1 Hat2].
    simpl length. rewrite length_app.
    change (S (length (encode c1) + length (encode c2)))
      with (1 + (length (encode c1) + length (encode c2)))%nat.
    rewrite !reverse_seq_app, !for_each_app.
    replace (p + 1)%nat with (S p) by lia.
    rewrite (IH2 _ operents Hb2 Hat2).
    destruct (eval_expr inputs c2) as [r2|]; [|done]. simpl.
    rewrite (IH1 _ _ Hb1 Hat1).
    destruct (eval_expr inputs c1) as [r1|]; [|done]. simpl.
    destruct (tags_distinct_cases Htags) as (_ & Htag & _ & _).
    rewrite (forward_step_function _ _ _ NType_BFUNC) by done.
    rewrite (np_get_Some _ _ _ Hv). simpl.
    by destruct (apply_func v r1 r2).
Qed.

End Evaluation.

(** X1.  On a tree with one output whose root span is the encoding of an
    expression without unary and ternary nodes, [python_forward] returns the
    value of the expression on every input vector of length [input_len],
    where a node is applied to the value of the subtree right after it as
    its right operand and to that of the subtree after that one as its left
    operand, and raises what the evaluation of the expression raises; the
    padding plays no part. *)
Theorem python_forward_evaluates_expression {F} {SF : Scalar F} {U : Utils}
    (il : Z) (e : expr F) (padding : list (node F)) (inputs : list F) :
  tags_distinct → binary_only e → Z.of_nat (length inputs) = il →
  python_forward (tree_of il 1 (encode e ++ padding)) inputs
  = eval_expr inputs e.
Proof.
  intros Htags Hbin Hlen. unfold python_forward.
  cbn [input_len output_len subtree_size tree_of].
  rewrite Hlen, !Z.eqb_refl. simpl.
  destruct (encode_head e) as (ty & v & tail & Henc).
  assert (np_get (n_size <$> encode e ++ padding) 0
          = Ok (Z.of_nat (length (encode e)))) as ->.
  { by rewrite Henc at 1. }
  simpl. unfold range_down. rewrite Nat2Z.id.
  rewrite (forward_loop_eval _ inputs e 0 [] Htags Hbin
             (holds_at_tree_of il 1 (encode e) padding)).
  by destruct (eval_expr inputs e).
Qed.

Lemma python_forward_evaluates_expression_witness :
  python_forward (U := sample_utils)
    (tree_of 2 1 (encode (U := sample_utils)
                    (EBinary 2%float (EVar 0%float)
                       (EBinary 3%float (EConst 4%float) (EVar 1%float)))
                  ++ [Node 9 0.5%float (-1)]))
    [2%float; 3%float]
  = Ok 10%float.
Proof.
  assert (binary_only (EBinary 2%float (EVar 0%float)
                         (EBinary 3%float (EConst 4%float) (EVar 1%float))))
    as Hbin by (simpl; tauto).
  exact (python_forward_evaluates_expression (U := sample_utils) 2 _
           [Node 9 0.5%float (-1)] [2%float; 3%float]
           sample_tags_distinct Hbin eq_refl).
Defined.

(** ** Protected division *)

Section Division.
Context {F : Type} {SF : Scalar F} {U : Utils}.
Implicit Types (e : expr F) (inputs : list F).

(** The interpreter on the tree of an expression without unary and ternary
    nodes, with or without padding. *)
Lemma python_forward_eval il e padding inputs :
  tags_distinct → binary_only e → Z.of_nat (length inputs) = il →
  python_forward (tree_of il 1 (encode e ++ padding)) inputs
  = eval_expr inputs e.
Proof.
  intros Htags Hbin Hlen. unfold python_forward.
  cbn [input_len output_len subtree_size tree_of].
  rewrite Hlen, !Z.eqb_refl. simpl.
  destruct (encode_head e) as (ty & v & tail & Henc).
  assert (np_get (n_size <$> encode e ++ padding) 0
          = Ok (Z.of_nat (length (encode e)))) as ->.
  { by rewrite Henc at 1. }
  simpl. unfold range_down. rewrite Nat2Z.id.
  rewrite (forward_loop_eval _ inputs e 0 [] Htags Hbin
             (holds_at_tree_of il 1 (encode e) padding)).
  by destruct (eval_expr inputs e).
Qed.

(** The value of a [DIV] node from the values of its two subtrees. *)
Lemma python_forward_div il v c1 c2 padding inputs right left :
  tags_distinct → opcode_of v = Some DIV →
  binary_only c1 → binary_only c2 → Z.of_nat (length inputs) = il →
  python_forward (tree_of il 1 (encode c1)) inputs = Ok right →
  python_forward (tree_of il 1 (encode c2)) inputs = Ok left →
  python_forward (tree_of il 1 (encode (EBinary v c1 c2) ++ padding)) inputs
  = Ok (if allclose0 right then left else fdiv left right).
Proof.
  intros Htags Hdiv Hb1 Hb2 Hlen Hright Hleft.
  rewrite <- (app_nil_r (encode c1)) in Hright.
  rewrite <- (app_nil_r (encode c2)) in Hleft.
  rewrite python_forward_eval in Hright, Hleft by done.
  rewrite python_forward_eval by done.
  cbn [eval_expr]. rewrite Hleft. cbn [mbind result_bind].
  rewrite Hright. cbn [mbind result_bind].
  rewrite apply_func_opcode, Hdiv. done.
Qed.

End Division.

(** C3 (as amended).  At a [DIV] node, when the right operand, popped first,
    is within the tolerance of [np.allclose] of zero the node's value is the
    left operand itself, whatever it is; otherwise it is the quotient of
    left by right in the arithmetic of the numbers.  So is the value that
    [python_forward] returns for a tree whose root is a [DIV] node: the right
    operand is the value of the subtree right after the node, the left
    operand that of the subtree after it. *)
Theorem div_node_is_protected {U : Utils} :
  (∀ {F} {SF : Scalar F} (t : Tree F) inputs i ty v right left rest,
     node_type t !! i = Some ty → function_tag ty →
     node_value t !! i = Some v → opcode_of v = Some DIV →
     (allclose0 right = true →
      forward_step t inputs i (right :: left :: rest) = Ok (left :: rest))
     ∧ (allclose0 right = false →
        forward_step t inputs i (right :: left :: rest)
        = Ok (fdiv left right :: rest)))
  ∧ (∀ {F} {SF : Scalar F} il v (c1 c2 : expr F) padding inputs right left,
     tags_distinct → opcode_of v = Some DIV →
     binary_only c1 → binary_only c2 → Z.of_nat (length inputs) = il →
     python_forward (tree_of il 1 (encode c1)) inputs = Ok right →
     python_forward (tree_of il 1 (encode c2)) inputs = Ok left →
     (allclose0 right = true →
      python_forward (tree_of il 1 (encode (EBinary v c1 c2) ++ padding))
        inputs = Ok left)
     ∧ (allclose0 right = false →
        python_forward (tree_of il 1 (encode (EBinary v c1 c2) ++ padding))
          inputs = Ok (fdiv left right))).
Proof.
  split.
  - intros F HF t inputs i ty v right left rest Hty Htag Hv Hdiv.
    rewrite (forward_step_function _ _ _ ty) by done.
    rewrite (np_get_Some _ _ _ Hv). simpl.
    rewrite apply_func_opcode, Hdiv. simpl.
    split; intros ->; done.
  - intros F HF il v c1 c2 padding inputs right left Htags Hdiv Hb1 Hb2 Hlen
      Hright Hleft.
    rewrite (python_forward_div il v c1 c2 padding inputs right left)
      by done.
    split; intros ->; done.
Qed.

Lemma div_node_is_protected_witness :
  forward_step (U := sample_utils)
    (sample_tree 1 1 (EBinary 4%float (EConst 0%float) (EConst 6%float)))
    [1%float] 0 [0%float; 6%float]
  = Ok [6%float]
  ∧ python_forward (U := sample_utils)
      (tree_of 1 1
         (encode (U := sample_utils)
            (EBinary 4%float (EVar 0%float)
               (EBinary 1%float (EConst 2%float) (EConst 4%float)))
          ++ [Node 7 0.5%float (-1)]))
      [4%float]
    = Ok 1.5%float.
Proof.
  pose proof (proj1 (div_node_is_protected (U := sample_utils))) as Hstep.
  pose proof (proj2 (div_node_is_protected (U := sample_utils))) as Htree.
  pose proof (sample_function_tag 3 (or_intror (or_introl eq_refl))) as Htag.
  assert (binary_only (EVar 0%float)) as Hb1 by done.
  assert (binary_only (EBinary 1%float (EConst 2%float) (EConst 4%float)))
    as Hb2 by done.
  split.
  - exact (proj1 (Hstep float _
                    (sample_tree 1 1
                       (EBinary 4%float (EConst 0%float) (EConst 6%float)))
                    [1%float] 0%nat 3 4%float 0%float 6%float []
                    eq_refl Htag eq_refl eq_refl) eq_refl).
  - exact (proj2 (Htree float _ 1 4%float (EVar 0%float)
                    (EBinary 1%float (EConst 2%float) (EConst 4%float))
                    [Node 7 0.5%float (-1)] [4%float] 4%float 6%float
                    sample_tags_distinct eq_refl Hb1 Hb2 eq_refl
                    eq_refl eq_refl) eq_refl).
Defined.

(** C3, counterexample.  The value of a protected division can be infinite
    or no number: the left operand is returned as it is.  The tree of
    [(2**600 * 2**600) / 0.0], whose constants are finite and which
    [assert_valid] accepts, evaluates to infinity; and at a [DIV] node with
    the right operand 0.0 and a left operand that is no number the value
    pushed is that operand. *)
Lemma div_node_returns_infinite_left :
  python_forward (U := sample_utils)
    (sample_tree 0 1
       (EBinary 4%float (EConst 0%float)
          (EBinary 3%float (EConst 0x1p600%float) (EConst 0x1p600%float))))
    []
  = Ok infinity
  ∧ assert_valid (U := sample_utils)
      (sample_tree 0 1
         (EBinary 4%float (EConst 0%float)
            (EBinary 3%float (EConst 0x1p600%float) (EConst 0x1p600%float))))
    = Ok ()
  ∧ forward_step (U := sample_utils)
      (sample_tree 0 1 (EBinary 4%float (EConst 0%float) (EConst 1%float)))
      [] 0 [0%float; nan]
    = Ok [nan].
Proof.
  split; [|split].
  - unfold python_forward. vm_compute. reflexivity.
  - unfold assert_valid. vm_compute. reflexivity.
  - unfold forward_step. vm_compute. reflexivity.
Qed.

(** ** What a successful validation guarantees *)

Section Soundness.
Context {F : Type} {SF : Scalar F} {U : Utils}.
Implicit Types (e : expr F) (t : Tree F) (inputs operents : list F).

Lemma py_index_same_length {A} (l1 l2 : list A) k :
  length l1 = length l2 →
  match py_index l1 k, py_index l2 k with
  | Ok _, Ok _ => True
  | Raise e1, Raise e2 => e1 = e2
  | _, _ => False
  end.
Proof.
  intros Hlen. unfold py_index, np_get. rewrite Hlen.
  destruct (_ <? 0); [done|].
  destruct (l1 !! _) as [x1|] eqn:H1, (l2 !! _) as [x2|] eqn:H2; try done.
  - apply lookup_lt_Some in H1. apply lookup_ge_None in H2. lia.
  - apply lookup_lt_Some in H2. apply lookup_ge_None in H1. lia.
Qed.

Lemma np_index_same_length {A} (l1 l2 : list A) k :
  length l1 = length l2 →
  match np_index l1 k, np_index l2 k with
  | Ok _, Ok _ => True
  | Raise e1, Raise e2 => e1 = e2
  | _, _ => False
  end.
Proof.
  intros Hlen. unfold np_index.
  pose proof (py_index_same_length l1 l2 k Hlen) as Hk.
  destruct (py_index l1 k), (py_index l2 k); try done.
  subst. by destruct (_ || _).
Qed.

Lemma apply_func_same v a b a' b' :
  match apply_func v a b, apply_func v a' b' with
  | Ok _, Ok _ => True
  | Raise e1, Raise e2 => e1 = e2
  | _, _ => False
  end.
Proof.
  unfold apply_func.
  destruct (eq_int v Func_ADD); [done|].
  destruct (eq_int v Func_SUB); [done|].
  destruct (eq_int v Func_MUL); [done|].
  destruct (eq_int v Func_DIV); [|done].
  by destruct (allclose0 a), (allclose0 a').
Qed.

(** Whether a step of the interpreter raises, and what, depends on the
    length of the input vector and on the height of the stack only. *)
Lemma forward_step_same_shape t in1 in2 i st1 st2 :
  length in1 = length in2 → length st1 = length st2 →
  same_shape (forward_step t in1 i st1) (forward_step t in2 i st2).
Proof.
  intros Hin Hst. unfold forward_step.
  destruct (np_get (node_type t) i) as [ty|]; [|done]. simpl.
  destruct (ty =? NType_VAR).
  { destruct (np_get (node_value t) i) as [v|]; [|done]. simpl.
    destruct (to_int v) as [k|]; [|done]. simpl.
    pose proof (np_index_same_length in1 in2 k Hin) as Hk.
    destruct (np_index in1 k), (np_index in2 k); try done.
    simpl. by rewrite Hst. }
  destruct (ty =? NType_CONST).
  { destruct (np_get (node_value t) i) as [v|]; [|done]. simpl.
    by rewrite Hst. }
  destruct st1 as [|a [|b st1]], st2 as [|a' [|b' st2]]; try done.
  simpl. destruct (np_get (node_value t) i) as [v|]; [|done]. simpl.
  pose proof (apply_func_same v a b a' b') as Hv.
  destruct (apply_func v a b), (apply_func v a' b'); try done.
  simpl in *. lia.
Qed.

Lemma forward_loop_same_shape t in1 in2 (l : list nat) st1 st2 :
  length in1 = length in2 → length st1 = length st2 →
  same_shape (for_each (forward_step t in1) l st1)
    (for_each (forward_step t in2) l st2).
Proof.
  intros Hin. revert st1 st2.
  induction l as [|i l IH]; intros st1 st2 Hst; simpl; [done|].
  pose proof (forward_step_same_shape t in1 in2 i st1 st2 Hin Hst) as Hstep.
  destruct (forward_step t in1 i st1), (forward_step t in2 i st2);
    try done.
  simpl. by apply IH.
Qed.

(** Every step of the interpreter reads [node_value] at its index. *)
Lemma forward_loop_reads_values t inputs (l : list nat) st st' :
  for_each (forward_step t inputs) l st = Ok st' →
  ∀ i, i ∈ l → is_Some (node_value t !! i).
Proof.
  revert st. induction l as [|j l IH]; intros st Hloop i Hi.
  { by apply elem_of_nil in Hi. }
  simpl in Hloop.
  destruct (forward_step t inputs j st) as [st1|] eqn:Hstep; [|done].
  apply elem_of_cons in Hi as [->|Hi]; [|by eapply IH].
  unfold forward_step, np_get in Hstep.
  destruct (node_type t !! j) as [ty|]; [|done]. simpl in Hstep.
  destruct (node_value t !! j) as [v|]; [by eexists|].
  destruct (ty =? NType_VAR); [done|].
  destruct (ty =? NType_CONST); [done|].
  by destruct st as [|a [|b st]].
Qed.

Lemma python_forward_Ok t inputs r :
  python_forward t inputs = Ok r →
  Z.of_nat (length inputs) = input_len t ∧ output_len t = 1
  ∧ ∃ size, subtree_size t !! 0%nat = Some size
      ∧ for_each (forward_step t inputs) (range_down size) [] = Ok [r].
Proof.
  unfold python_forward. intros Hfwd.
  destruct (Z.eqb_spec (Z.of_nat (length inputs)) (input_len t)); [|done].
  destruct (Z.eqb_spec (output_len t) 1); [|done]. simpl in Hfwd.
  unfold np_get in Hfwd at 1.
  destruct (subtree_size t !! 0%nat) as [size|]; [|done]. simpl in Hfwd.
  destruct (for_each _ _ []) as [[|x [|y ops]]|] eqn:Hloop; try done.
  simpl in Hfwd. injection Hfwd as ->.
  split; [done|]. split; [done|]. by exists size.
Qed.

End Soundness.

(** X2.  A tree that passes [assert_valid] is evaluated without an
    exception on every input vector of length [input_len]. *)
Theorem validated_tree_evaluates {F} {SF : Scalar F} {U : Utils}
    (t : Tree F) (inputs : list F) :
  assert_valid t = Ok () →
  Z.of_nat (length inputs) = input_len t →
  ∃ r, python_forward t inputs = Ok r.
Proof.
  intros Hvalid Hlen. unfold assert_valid in Hvalid.
  destruct (python_forward t _) as [r0|] eqn:Hdummy; [|done].
  destruct (python_forward_Ok _ _ _ Hdummy)
    as (Hlen0 & Hout & size & Hsize & Hloop).
  unfold python_forward. rewrite Hlen, Hout, !Z.eqb_refl. simpl.
  rewrite (np_get_Some _ _ _ Hsize). simpl.
  pose proof (forward_loop_same_shape t inputs
                (replicate (Z.to_nat (input_len t)) fzero)
                (range_down size) [] []) as Hsame.
  rewrite Hloop in Hsame.
  destruct (for_each (forward_step t inputs) (range_down size) [])
    as [[|r [|y ops]]|]; simpl in Hsame.
  - discriminate Hsame; [lia|done].
  - by exists r.
  - discriminate Hsame; [lia|done].
  - exfalso. apply Hsame; [lia|done].
Qed.

Lemma validated_tree_evaluates_witness :
  ∃ r, python_forward (U := sample_utils)
         (sample_tree 2 1
            (EBinary 4%float (EVar 0%float)
               (EBinary 1%float (EConst 0.5%float) (EVar 1%float))))
         [0%float; 7%float]
       = Ok r.
Proof.
  exact (validated_tree_evaluates (U := sample_utils)
           (sample_tree 2 1
              (EBinary 4%float (EVar 0%float)
                 (EBinary 1%float (EConst 0.5%float) (EVar 1%float))))
           [0%float; 7%float] eq_refl eq_refl).
Defined.

Section Decoding.
Context {F : Type} {SF : Scalar F} {U : Utils}.
Implicit Types (e : expr F) (es : list (expr F)) (t : Tree F).

Lemma holds_at_cons_2 t p (nd : node F) slots :
  node_type t !! p = Some (n_type nd) →
  node_value t !! p = Some (n_value nd) →
  subtree_size t !! p = Some (n_size nd) →
  holds_at t (S p) slots →
  holds_at t p (nd :: slots).
Proof.
  intros Hty Hv Hsz Hrest [|j] nd' Hj.
  - injection Hj as <-. by rewrite Nat.add_0_r.
  - replace (p + S j)%nat with (S p + j)%nat by lia. by apply Hrest.
Qed.

Lemma holds_at_nil t p : holds_at t p [].
Proof. by intros j nd Hj. Qed.

(** One step of the second loop of [assert_valid] that passes turns the
    expressions found from the next slot on into the expressions found from
    its own slot on. *)
Lemma encode_all_cons e es : encode_all (e :: es) = encode e ++ encode_all es.
Proof. done. Qed.

Lemma sizes_cons e es :
  sizes (e :: es) = Z.of_nat (length (encode e)) :: sizes es.
Proof. done. Qed.

Ltac decoded Hsz :=
  split;
  [ rewrite encode_all_cons; cbn [encode]; rewrite <- app_comm_cons;
    rewrite <- ?app_assoc; apply holds_at_cons_2;
    cbn [n_type n_value n_size];
    [done | done | rewrite Hsz; f_equal; lia | done]
  | rewrite sizes_cons; cbn [encode length]; rewrite ?length_app;
    f_equal; lia ].

Lemma size_step_decode t j st' es :
  holds_at t (S j) (encode_all es) →
  is_Some (node_value t !! j) →
  size_step t j (sizes es) = Ok st' →
  ∃ es', holds_at t j (encode_all es') ∧ st' = sizes es'.
Proof.
  intros Hat [v Hv] Hstep. unfold size_step, np_get in Hstep.
  destruct (node_type t !! j) as [ty|] eqn:Hty; [|done].
  cbn [mbind result_bind] in Hstep.
  destruct (slot_size ty (sizes es)) as [[size rest]|] eqn:Hslot; [|done].
  cbn [mbind result_bind] in Hstep.
  destruct (subtree_size t !! j) as [stored|] eqn:Hsz; [|done].
  cbn [mbind result_bind] in Hstep.
  destruct (Z.eqb_spec stored size) as [->|]; [|done].
  cbn [assert mbind result_bind] in Hstep. injection Hstep as <-.
  unfold slot_size in Hslot.
  destruct (Z.eqb_spec ty NType_VAR) as [->|_].
  { injection Hslot as <- <-. exists (EVar v :: es). decoded Hsz. }
  destruct (Z.eqb_spec ty NType_CONST) as [->|_].
  { injection Hslot as <- <-. exists (EConst v :: es). decoded Hsz. }
  destruct (Z.eqb_spec ty NType_UFUNC) as [->|_].
  { destruct es as [|e1 es]; [done|].
    rewrite sizes_cons in Hslot. rewrite encode_all_cons in Hat.
    cbn [pop mbind result_bind] in Hslot. injection Hslot as <- <-.
    exists (EUnary v e1 :: es). decoded Hsz. }
  destruct (Z.eqb_spec ty NType_BFUNC) as [->|_].
  { destruct es as [|e1 [|e2 es]]; [done..|].
    rewrite !sizes_cons in Hslot. rewrite !encode_all_cons in Hat.
    cbn [pop mbind result_bind] in Hslot. injection Hslot as <- <-.
    exists (EBinary v e1 e2 :: es). decoded Hsz. }
  destruct (Z.eqb_spec ty NType_TFUNC) as [->|_]; [|done].
  destruct es as [|e1 [|e2 [|e3 es]]]; [done..|].
  rewrite !sizes_cons in Hslot. rewrite !encode_all_cons in Hat.
  cbn [pop mbind result_bind] in Hslot. injection Hslot as <- <-.
  exists (ETernary v e1 e2 e3 :: es). decoded Hsz.
Qed.

Lemma size_loop_decode t (m j : nat) st' es :
  holds_at t (j + m) (encode_all es) →
  (∀ i, i ∈ seq j m → is_Some (node_value t !! i)) →
  for_each (size_step t) (reverse (seq j m)) (sizes es) = Ok st' →
  ∃ es', holds_at t j (encode_all es') ∧ st' = sizes es'.
Proof.
  revert j st' es. induction m as [|m IH]; intros j st' es Hat Hval Hloop.
  - simpl in Hloop. injection Hloop as <-. exists es.
    by rewrite Nat.add_0_r in Hat.
  - cbn [seq] in Hloop. rewrite reverse_cons, for_each_snoc in Hloop.
    destruct (for_each (size_step t) (reverse (seq (S j) m)) (sizes es))
      as [st1|] eqn:Hhigh; [|done]. simpl in Hloop.
    destruct (IH (S j) st1 es) as (es1 & Hat1 & ->); [| |done|].
    + by replace (S j + m)%nat with (j + S m)%nat by lia.
    + intros i Hi. apply Hval. cbn [seq]. by right.
    + apply (size_step_decode t j st' es1); [done| |done].
      apply Hval. cbn [seq]. by left.
Qed.

End Decoding.

(** X3.  A tree that passes [assert_valid] has one output, an input length
    that is not negative, and a root span that is the encoding of an
    expression: the slots from 0 on hold the tags, the values and the subtree
    sizes of the encoding, and [subtree_size[0]] is its length, which is at
    least 1 and at most the length of each of the three arrays. *)
Theorem validated_tree_is_an_encoding {F} {SF : Scalar F} {U : Utils}
    (t : Tree F) :
  assert_valid t = Ok () →
  output_len t = 1 ∧ 0 ≤ input_len t
  ∧ ∃ e, holds_at t 0 (encode e)
      ∧ subtree_size t !! 0%nat = Some (Z.of_nat (length (encode e)))
      ∧ (1 ≤ length (encode e) ≤ length (node_type t))%nat
      ∧ (length (encode e) ≤ length (node_value t))%nat
      ∧ (length (encode e) ≤ length (subtree_size t))%nat.
Proof.
  intros Hvalid. unfold assert_valid in Hvalid.
  destruct (python_forward t _) as [r|] eqn:Hfwd; [|done]. simpl in Hvalid.
  destruct (python_forward_Ok _ _ _ Hfwd)
    as (Hlen & Hout & sz & Hsize & Hloop).
  split; [done|]. split; [lia|].
  destruct (root_size_loop (node_type t) 1 0) as [n|]; [|done].
  simpl in Hvalid. rewrite (np_get_Some _ _ _ Hsize) in Hvalid.
  simpl in Hvalid.
  destruct (Z.eqb_spec sz (Z.of_nat n)) as [Hsz|]; [|done]. subst sz.
  simpl in Hvalid.
  unfold range_down in *. rewrite Nat2Z.id in *.
  destruct (for_each (size_step t) (reverse (seq 0 n)) [])
    as [[|s [|s' ops]]|] eqn:Hsizes; try done.
  destruct (size_loop_decode t n 0 [s] []) as (es & Hat & Hes);
    [apply holds_at_nil| |done|].
  { intros i Hi. apply (forward_loop_reads_values _ _ _ _ _ Hloop).
    by apply elem_of_reverse. }
  destruct es as [|e [|e' es]]; try done.
  unfold encode_all in Hat. simpl in Hat. rewrite app_nil_r in Hat.
  exists e. split; [done|].
  destruct (encode_head e) as (ty & v & tail & Henc).
  pose proof Hat as Hat'. rewrite Henc in Hat'.
  destruct (holds_at_cons _ _ _ _ Hat') as (_ & _ & Hroot & _).
  simpl in Hroot. split; [done|].
  assert (length (encode e) ≠ 0)%nat as Hpos by (by rewrite Henc).
  destruct (lookup_lt_is_Some_2 (encode e) (length (encode e) - 1))
    as [nd Hnd]; [lia|].
  destruct (Hat _ _ Hnd) as (Hty & Hv & Hsz).
  apply lookup_lt_Some in Hty, Hv, Hsz. lia.
Qed.

Lemma validated_tree_is_an_encoding_witness :
  output_len (sample_tree 2 1 (EBinary 1%float (EVar 0%float) (EVar 1%float)))
  = 1.
Proof.
  exact (proj1 (validated_tree_is_an_encoding (U := sample_utils)
                  (sample_tree 2 1
                     (EBinary 1%float (EVar 0%float) (EVar 1%float)))
                  eq_refl)).
Defined.

(** ** The serializers on encodings *)

Lemma string_app_assoc (s1 s2 s3 : string) :
  (s1 +:+ s2) +:+ s3 = s1 +:+ (s2 +:+ s3).
Proof.
  induction s1 as [|c s1 IH]; [done|].
  change (String c ((s1 +:+ s2) +:+ s3) = String c (s1 +:+ (s2 +:+ s3))).
  by rewrite IH.
Qed.

Lemma string_app_nil_r (s : string) : s +:+ "" = s.
Proof.
  induction s as [|c s IH]; [done|].
  change (String c (s +:+ "") = String c s). by rewrite IH.
Qed.

Section Tokens.
Context {F : Type} {SF : Scalar F} {U : Utils}.
Implicit Types (e : expr F) (t : Tree F) (res : string).

Lemma str_step_function t i ty v res :
  tags_distinct →
  ty = NType_UFUNC ∨ ty = NType_BFUNC ∨ ty = NType_TFUNC →
  node_type t !! i = Some ty → node_value t !! i = Some v →
  str_step t i res
  = (k ← to_int v; name ← py_index FUNCS_NAMES k;
     Ok ((res +:+ name) +:+ " ")).
Proof.
  intros Htags Hfun Hty Hv. unfold str_step.
  rewrite (np_get_Some _ _ _ Hty). simpl.
  assert ((ty =? NType_UFUNC) || (ty =? NType_BFUNC) || (ty =? NType_TFUNC)
          = true) as ->.
  { destruct Hfun as [-> | [-> | ->]]; rewrite Z.eqb_refl;
      by rewrite ?orb_true_r. }
  rewrite (np_get_Some _ _ _ Hv). simpl.
  destruct (to_int v) as [k|]; [|done]. simpl.
  by destruct (py_index FUNCS_NAMES k).
Qed.

(** The loop of [__str__] over the slots of an encoding appends the tokens
    of the expression, or raises what their computation raises. *)
Lemma str_loop_encode t e p res :
  tags_distinct → holds_at t p (encode e) →
  for_each (str_step t) (seq p (length (encode e))) res
  = (s ← str_expr e; Ok (res +:+ s)).
Proof.
  intros Htags. revert p res.
  induction e as [v|v|v c1 IH1|v c1 IH1 c2 IH2|v c1 IH1 c2 IH2 c3 IH3];
    intros p res Hat; cbn [encode str_expr] in Hat |- *;
    destruct (holds_at_cons _ _ _ _ Hat) as (Hty & Hv & _ & Hrest);
    cbn [n_type n_value] in Hty, Hv.
  - simpl. unfold str_step.
    rewrite (np_get_Some _ _ _ Hty). simpl. tag_cases Htags. simpl.
    rewrite (np_get_Some _ _ _ Hv). simpl.
    destruct (to_int v) as [k|]; [|done]. simpl.
    by rewrite ?string_app_assoc.
  - simpl. unfold str_step.
    rewrite (np_get_Some _ _ _ Hty). simpl. tag_cases Htags. simpl.
    rewrite (np_get_Some _ _ _ Hv). simpl.
    by rewrite ?string_app_assoc.
  - simpl length.
    change (S (length (encode c1))) with (1 + length (encode c1))%nat.
    rewrite seq_app, for_each_app. simpl seq. cbn [for_each].
    rewrite (str_step_function _ _ NType_UFUNC v) by auto.
    destruct (to_int v) as [k|]; [|done]. simpl.
    destruct (py_index FUNCS_NAMES k) as [name|]; [|done]. simpl.
    replace (p + 1)%nat with (S p) by lia. rewrite (IH1 _ _ Hrest).
    destruct (str_expr c1) as [s1|]; [|done]. simpl.
    by rewrite ?string_app_assoc.
  - destruct (holds_at_app _ _ _ _ Hrest) as [Hat1 Hat2].
    simpl length. rewrite length_app.
    change (S (length (encode c1) + length (encode c2)))
      with (1 + (length (encode c1) + length (encode c2)))%nat.
    rewrite !seq_app, !for_each_app. simpl seq. cbn [for_each].
    rewrite (str_step_function _ _ NType_BFUNC v) by auto.
    destruct (to_int v) as [k|]; [|done]. simpl.
    destruct (py_index FUNCS_NAMES k) as [name|]; [|done]. simpl.
    replace (p + 1)%nat with (S p) by lia.
    rewrite ?for_each_app, (IH1 _ _ Hat1).
    destruct (str_expr c1) as [s1|]; [|done]. simpl.
    rewrite ?for_each_app, (IH2 _ _ Hat2).
    destruct (str_expr c2) as [s2|]; [|done]. simpl.
    by rewrite ?string_app_assoc.
  - destruct (holds_at_app _ _ _ _ Hrest) as [Hat1 Hrest'].
    destruct (holds_at_app _ _ _ _ Hrest') as [Hat2 Hat3].
    simpl length. rewrite !length_app.
    change (S (length (encode c1)
               + (length (encode c2) + length (encode c3))))
      with (1 + (length (encode c1)
                 + (length (encode c2) + length (encode c3))))%nat.
    rewrite !seq_app, !for_each_app. simpl seq. cbn [for_each].
    rewrite (str_step_function _ _ NType_TFUNC v) by auto.
    destruct (to_int v) as [k|]; [|done]. simpl.
    destruct (py_index FUNCS_NAMES k) as [name|]; [|done]. simpl.
    replace (p + 1)%nat with (S p) by lia.
    rewrite ?for_each_app, (IH1 _ _ Hat1).
    destruct (str_expr c1) as [s1|]; [|done]. simpl.
    rewrite ?for_each_app, (IH2 _ _ Hat2).
    destruct (str_expr c2) as [s2|]; [|done]. simpl.
    replace (S p + length (encode c1) + length (encode c2))%nat
      with (S p + (length (encode c1) + length (encode c2)))%nat
      in Hat3 |- * by lia.
    rewrite (IH3 _ _ Hat3).
    destruct (str_expr c3) as [s3|]; [|done]. simpl.
    by rewrite ?string_app_assoc.
Qed.

End Tokens.

(** X4.  On a tree whose root span is the encoding of an expression,
    [__str__] returns the tokens of the expression in prefix order, each
    followed by one space: the name of the opcode, then the tokens of the
    children in the order of their slots; it raises only what the conversion
    of a value with [int()] or the lookup of an opcode in [FUNCS_NAMES]
    raises.  The padding plays no part. *)
Theorem str_is_prefix_notation {F} {SF : Scalar F} {U : Utils}
    (il ol : Z) (e : expr F) (padding : list (node F)) :
  tags_distinct →
  __str__ (tree_of il ol (encode e ++ padding)) = str_expr e.
Proof.
  intros Htags. unfold __str__. cbn [subtree_size tree_of].
  destruct (encode_head e) as (ty & v & tail & Henc).
  assert (np_get (n_size <$> encode e ++ padding) 0
          = Ok (Z.of_nat (length (encode e)))) as ->.
  { by rewrite Henc at 1. }
  simpl. unfold range_up. rewrite Nat2Z.id.
  rewrite (str_loop_encode _ e 0 "" Htags
             (holds_at_tree_of il ol (encode e) padding)).
  by destruct (str_expr e).
Qed.

Lemma str_is_prefix_notation_witness :
  __str__ (U := sample_utils)
    (tree_of 2 1 (encode (U := sample_utils)
                    (EBinary 2%float (EVar 0%float)
                       (EUnary 12%float (EConst 0.5%float)))
                  ++ [Node 0 3%float 1]))
  = Ok "- x[0] sin 0.50 ".
Proof.
  exact (str_is_prefix_notation (U := sample_utils) 2 1
           (EBinary 2%float (EVar 0%float)
              (EUnary 12%float (EConst 0.5%float)))
           [Node 0 3%float 1] sample_tags_distinct).
Defined.

Section Rendering.
Context {F : Type} {SF : Scalar F} {U : Utils}.
Implicit Types (e : expr F) (t : Tree F) (stack : list string).

(** The loop of [to_infix] over the slots of an encoding pushes the string
    of the expression, or raises what its computation raises. *)
Lemma infix_loop_encode_result e stack :
  tags_distinct →
  for_each (λ tv, infix_step tv.1 tv.2) (reverse (tagged <$> encode e)) stack
  = (s ← infix_expr e; Ok (s :: stack)).
Proof.
  intros Htags. revert stack.
  induction e as [v|v|v c1 IH1|v c1 IH1 c2 IH2|v c1 IH1 c2 IH2 c3 IH3];
    intros stack; cbn [encode infix_expr].
  - simpl. unfold infix_step. tag_cases Htags.
    by destruct (to_int v).
  - simpl. unfold infix_step. by tag_cases Htags.
  - rewrite fmap_cons, reverse_cons, for_each_snoc, IH1.
    destruct (infix_expr c1) as [a|]; [|done]. simpl.
    unfold infix_step. tag_cases Htags.
    destruct (to_int v) as [k|]; [|done]. simpl.
    by destruct (py_index FUNCS_DISPLAY k).
  - rewrite fmap_cons, reverse_cons, for_each_snoc, fmap_app, reverse_app.
    rewrite for_each_app, IH2.
    destruct (infix_expr c2) as [b|]; [|done]. simpl. rewrite IH1.
    destruct (infix_expr c1) as [a|]; [|done]. simpl.
    unfold infix_step. tag_cases Htags.
    destruct (to_int v) as [k|] eqn:Hk; [|done]. simpl.
    destruct (bool_decide (k ∈ [5; 6; 7])); simpl;
      by destruct (py_index FUNCS_DISPLAY k).
  - rewrite fmap_cons, reverse_cons, for_each_snoc, !fmap_app, !reverse_app.
    rewrite !for_each_app, IH3.
    destruct (infix_expr c3) as [c|]; [|done]. simpl. rewrite IH2.
    destruct (infix_expr c2) as [b|]; [|done]. simpl. rewrite IH1.
    destruct (infix_expr c1) as [a|]; [|done]. simpl.
    unfold infix_step. tag_cases Htags.
    destruct (to_int v) as [k|]; [|done]. simpl.
    by destruct (py_index FUNCS_DISPLAY k).
Qed.

Lemma slice_to_all {A} (l : list A) (n : Z) :
  Z.of_nat (length l) ≤ n → slice_to l n = l.
Proof.
  intros Hn. unfold slice_to. destruct (Z.ltb_spec n 0); [lia|].
  apply take_ge. lia.
Qed.

End Rendering.

(** X5.  On a tree whose root span is the encoding of an expression,
    [to_infix] returns the string of the expression, operands in the order of
    their slots, and raises only what the conversion of a value with [int()]
    or the lookup of an opcode in [FUNCS_DISPLAY] raises: the stack never
    runs empty.  The padding plays no part. *)
Theorem to_infix_renders_expression {F} {SF : Scalar F} {U : Utils}
    (il ol : Z) (e : expr F) (padding : list (node F)) :
  tags_distinct →
  (to_infix (tree_of il ol (encode e ++ padding))).2 = infix_expr e.
Proof.
  intros Htags. unfold to_infix, infix_pass.
  cbn [snd subtree_size node_type node_value tree_of].
  destruct (encode_head e) as (ty & v & tail & Henc).
  assert (np_get (n_size <$> encode e ++ padding) 0
          = Ok (Z.of_nat (length (encode e)))) as ->.
  { by rewrite Henc at 1. }
  simpl. rewrite !fmap_app.
  rewrite <- (length_fmap n_type (encode e)) at 1.
  rewrite slice_to_encoding.
  rewrite <- (length_fmap n_value (encode e)) at 1.
  rewrite slice_to_encoding.
  rewrite <- !fmap_reverse, zip_fmap_same, fmap_reverse.
  change (λ x : node F, (n_type x, n_value x)) with (@tagged F).
  rewrite (infix_loop_encode_result e [] Htags).
  by destruct (infix_expr e).
Qed.

Lemma to_infix_renders_expression_witness :
  (to_infix (U := sample_utils)
     (tree_of 1 1 (encode (U := sample_utils)
                     (EBinary 99%float (EVar 0%float) (EConst 1%float))
                   ++ [Node 0 0%float 1]))).2
  = Raise IndexError.
Proof.
  exact (to_infix_renders_expression (U := sample_utils) 1 1
           (EBinary 99%float (EVar 0%float) (EConst 1%float))
           [Node 0 0%float 1] sample_tags_distinct).
Defined.

(** X6.  The interpreter and [to_infix] read the two children of a binary
    node in opposite roles.  For the tree of a [SUB] node followed by the
    variables [a] and [b], [python_forward] returns [x[b] - x[a]], the slot
    after the node being the right operand, and [to_infix] prints
    [(x[a] - x[b])]. *)
Theorem interpreter_and_infix_swap_operands {F} {SF : Scalar F} {U : Utils}
    (il : Z) (v va vb : F) (k a b : Z) (f : string) (xa xb : F)
    (inputs : list F) :
  tags_distinct → opcode_of v = Some SUB →
  to_int v = Ok k → k ∉ [5; 6; 7] → py_index FUNCS_DISPLAY k = Ok f →
  to_int va = Ok a → to_int vb = Ok b →
  Z.of_nat (length inputs) = il →
  py_index inputs a = Ok xa → py_index inputs b = Ok xb →
  python_forward (tree_of il 1 (encode (EBinary v (EVar va) (EVar vb))))
    inputs
  = Ok (fsub xb xa)
  ∧ to_infix (tree_of il 1 (encode (EBinary v (EVar va) (EVar vb))))
    = ([], Ok ("(" +:+ ("x[" +:+ pretty a +:+ "]") +:+ " " +:+ f +:+ " "
               +:+ ("x[" +:+ pretty b +:+ "]") +:+ ")")).
Proof.
  intros Htags Hsub Hk Hinfix Hf Ha Hb Hlen Hxa Hxb. split.
  - destruct (tags_distinct_cases Htags) as (_ & Htag & _ & _).
    change (encode (EBinary v (EVar va) (EVar vb)))
      with [Node NType_BFUNC v 3; Node NType_VAR va 1; Node NType_VAR vb 1].
    rewrite (python_forward_three_slots _ _ _ _ _ _ xa xb); try done.
    + by rewrite apply_func_opcode, Hsub.
    + intros st. by apply (forward_step_var _ _ _ vb b xb).
    + intros st. by apply (forward_step_var _ _ _ va a xa).
  - unfold to_infix. cbn [output_len tree_of]. f_equal.
    rewrite <- (app_nil_r (encode (EBinary v (EVar va) (EVar vb)))).
    apply infix_pass_encode; [done|].
    simpl. rewrite Hb, Ha. simpl. rewrite Hk. simpl. rewrite Hf. simpl.
    by rewrite bool_decide_eq_false_2 by done.
Qed.

Lemma interpreter_and_infix_swap_operands_witness :
  let t := sample_tree 2 1 (EBinary 2%float (EVar 0%float) (EVar 1%float)) in
  python_forward (U := sample_utils) t [5%float; 3%float] = Ok (-2)%float
  ∧ to_infix (U := sample_utils) t = ([], Ok "(x[0] - x[1])").
Proof.
  intros t.
  assert ((2 : Z) ∉ [5; 6; 7]) as Hinfix.
  { intros Hin. rewrite !elem_of_cons, elem_of_nil in Hin. lia. }
  exact (interpreter_and_infix_swap_operands (U := sample_utils)
           2 2%float 0%float 1%float 2 0 1 "-" 5%float 3%float
           [5%float; 3%float] sample_tags_distinct eq_refl eq_refl
           Hinfix eq_refl eq_refl eq_refl eq_refl eq_refl eq_refl).
Defined.

(** ** Stored root sizes outside the arrays *)

(** X7.  When the stored [subtree_size[0]] is zero or negative, [__str__]
    returns the empty string, whatever the arrays hold.  When it is zero,
    [to_infix] raises [IndexError], at the [pop] of the empty stack. *)
Theorem empty_root_span {F} {SF : Scalar F} {U : Utils}
    (t : Tree F) (size : Z) :
  subtree_size t !! 0%nat = Some size → size ≤ 0 →
  __str__ t = Ok ""
  ∧ (size = 0 → (to_infix t).2 = Raise IndexError).
Proof.
  intros Hsize Hneg. split.
  - unfold __str__. rewrite (np_get_Some _ _ _ Hsize). simpl.
    unfold range_up. by replace (Z.to_nat size) with 0%nat by lia.
  - intros ->. unfold to_infix, infix_pass. cbn [snd].
    rewrite (np_get_Some _ _ _ Hsize). simpl.
    unfold slice_to. simpl. by rewrite ?take_0.
Qed.

Lemma empty_root_span_witness :
  __str__ (U := sample_utils)
    (corrupt (sample_tree 2 1
                (EBinary 1%float (EVar 0%float) (EVar 1%float))) 0 0)
  = Ok ""
  ∧ (to_infix (U := sample_utils)
       (corrupt (sample_tree 2 1
                   (EBinary 1%float (EVar 0%float) (EVar 1%float))) 0 0)).2
    = Raise IndexError.
Proof.
  assert (0 ≤ 0) as Hle by lia.
  destruct (empty_root_span (U := sample_utils)
              (corrupt (sample_tree 2 1
                          (EBinary 1%float (EVar 0%float) (EVar 1%float)))
                 0 0)
              0 eq_refl Hle)
    as (Hstr & Hinfix).
  split; [exact Hstr|by apply Hinfix].
Defined.

(** X8.  [to_infix] does not fail on a stored root size beyond the arrays:
    the slices stop at the end of the arrays, so for a tree whose
    [node_type] and [node_value] have [n] slots every stored
    [subtree_size[0]] of at least [n] gives the same result, that of the
    reverse pass over all the [n] slots. *)
Theorem to_infix_clamps_root_size {F} {SF : Scalar F} {U : Utils}
    (t : Tree F) (size : Z) :
  subtree_size t !! 0%nat = Some size →
  Z.of_nat (length (node_type t)) ≤ size →
  Z.of_nat (length (node_value t)) ≤ size →
  (to_infix t).2
  = (stack ← for_each (λ tv, infix_step tv.1 tv.2)
               (zip (reverse (node_type t)) (reverse (node_value t))) [];
     '(s, _) ← pop stack; Ok s)
  ∧ ∀ size', Z.of_nat (length (node_type t)) ≤ size' →
      Z.of_nat (length (node_value t)) ≤ size' →
      to_infix (corrupt t 0 size') = to_infix t.
Proof.
  intros Hsize Hty Hv.
  assert (infix_pass t
          = (stack ← for_each (λ tv, infix_step tv.1 tv.2)
                       (zip (reverse (node_type t)) (reverse (node_value t)))
                       [];
             '(s, _) ← pop stack; Ok s)) as Hpass.
  { unfold infix_pass. rewrite (np_get_Some _ _ _ Hsize). simpl.
    by rewrite !slice_to_all by done. }
  split; [done|].
  intros size' Hty' Hv'. unfold to_infix. cbn [corrupt output_len]. f_equal.
  rewrite Hpass. unfold infix_pass.
  cbn [corrupt subtree_size node_type node_value].
  assert (np_get (<[0%nat:=size']> (subtree_size t)) 0 = Ok size') as ->.
  { apply np_get_Some. apply list_lookup_insert_eq.
    by eapply lookup_lt_Some. }
  simpl. by rewrite !slice_to_all by done.
Qed.

Lemma to_infix_clamps_root_size_witness :
  let t := corrupt (sample_tree 2 1
                      (EBinary 1%float (EVar 0%float) (EVar 1%float))) 0 7 in
  to_infix (U := sample_utils) (corrupt t 0 1000)
  = ([], Ok "(x[0] + x[1])").
Proof.
  intros t.
  assert (3 ≤ 7) as H7 by lia. assert (3 ≤ 1000) as H1000 by lia.
  exact (proj2 (to_infix_clamps_root_size (U := sample_utils) t 7
                  eq_refl H7 H7) 1000 H1000 H1000).
Defined.

(** ** The graph of a tree *)

Section Drawing.
Context {F : Type} {SF : Scalar F} {U : Utils} {FL : Flags} {B : Bits F}.
Implicit Types (e : expr F) (t : Tree F) (g : DiGraph).

Lemma run_bind_Return {A} (m : run A) : (x ← m; Return x) = m.
Proof. by destruct m. Qed.

Lemma lift_not_OutOfFuel {A} (r : result A) : lift r ≠ OutOfFuel.
Proof. by destruct r. Qed.

Lemma function_label_not_OutOfFuel (v : F) oi :
  function_label v oi ≠ OutOfFuel.
Proof.
  unfold function_label, view. destruct (oi =? -1).
  - destruct (to_int v) as [k|]; [|done]. simpl.
    by destruct (py_index FUNCS_DISPLAY k).
  - destruct (view_int32 v) as [b|]; [|done]. simpl.
    by destruct (py_index FUNCS_DISPLAY _).
Qed.

Lemma describe_not_OutOfFuel ty (v : F) oi : describe ty v oi ≠ OutOfFuel.
Proof.
  unfold describe.
  destruct (ty =? NType_CONST); [done|].
  destruct (ty =? NType_VAR).
  { by destruct (to_int v). }
  pose proof (function_label_not_OutOfFuel v oi) as Hlabel.
  destruct (ty =? NType_UFUNC).
  { by destruct (function_label v oi). }
  destruct (ty =? NType_BFUNC).
  { by destruct (function_label v oi). }
  destruct (ty =? NType_TFUNC); [|done].
  by destruct (function_label v oi).
Qed.

(** A call that gets as far as its children has read a slot and has left
    [node_idx] as it was. *)
Lemma visit_inv t g :
  visit t g ≠ OutOfFuel
  ∧ ∀ g' k, visit t g = Return (g', k) →
      node_idx g' = node_idx g
      ∧ (node_idx g < length (node_type t))%nat.
Proof.
  unfold visit, np_get.
  destruct (node_type t !! node_idx g) as [ty|] eqn:Hty; [|done]. simpl.
  destruct (node_value t !! node_idx g) as [v|]; [|done]. simpl.
  apply lookup_lt_Some in Hty.
  assert (∀ oi,
    (d ← describe (Z.land ty NType_TYPE_MASK) v oi;
     match d with
     | Some (node_label, child_remain) =>
         if oi =? -1
         then Return (add_node g (node_idx g) {["label" := node_label]},
                      child_remain)
         else Return (add_node g (node_idx g)
                        (<["label" := node_label]>
                         (<["xlabel" := "out[" +:+ pretty oi +:+ "]"]>
                          {["color" := "red"]})), child_remain)
     | None => Fail (UnboundLocalError "node_label")
     end) ≠ OutOfFuel
    ∧ ∀ g' k,
        (d ← describe (Z.land ty NType_TYPE_MASK) v oi;
         match d with
         | Some (node_label, child_remain) =>
             if oi =? -1
             then Return (add_node g (node_idx g) {["label" := node_label]},
                          child_remain)
             else Return (add_node g (node_idx g)
                            (<["label" := node_label]>
                             (<["xlabel" := "out[" +:+ pretty oi +:+ "]"]>
                              {["color" := "red"]})), child_remain)
         | None => Fail (UnboundLocalError "node_label")
         end) = Return (g', k) →
        node_idx g' = node_idx g
        ∧ (node_idx g < length (node_type t))%nat) as Hrest.
  { intros oi.
    pose proof (describe_not_OutOfFuel (Z.land ty NType_TYPE_MASK) v oi).
    destruct (describe _ v oi) as [[[lbl k]|]| |]; simpl; try done.
    destruct (oi =? -1); split; try done;
      intros g' k' Heq; injection Heq as <- <-; done. }
  destruct (Z.land ty NType_OUT_NODE =? 0); simpl; [apply Hrest|].
  unfold view. destruct (view_int32 v) as [b|]; simpl; [apply Hrest|done].
Qed.

(** The recursion of [_fillout_graph] ends, and never lowers [node_idx]. *)
Lemma fillout_fuel_enough t (fuel : nat) g :
  (0 < fuel)%nat → (length (node_type t) < fuel + node_idx g)%nat →
  fillout fuel t g ≠ OutOfFuel
  ∧ ∀ g', fillout fuel t g = Return g' → (node_idx g ≤ node_idx g')%nat.
Proof.
  revert g. induction fuel as [|fuel IH]; intros g Hpos Hfuel; [lia|].
  cbn [fillout].
  destruct (visit_inv t g) as [Hvisit Hidx].
  destruct (visit t g) as [[g1 k]| |]; [|done..]. simpl.
  destruct (Hidx g1 k eq_refl) as [Hidx1 Hlt]. clear Hidx Hvisit.
  assert (∀ (l : list nat) g2, (node_idx g ≤ node_idx g2)%nat →
    for_run (λ i g0, fillout fuel t
                       (add_edge (next_node g0) (node_idx (next_node g0))
                          (node_idx g) i)) l g2 ≠ OutOfFuel
    ∧ ∀ g', for_run (λ i g0, fillout fuel t
                       (add_edge (next_node g0) (node_idx (next_node g0))
                          (node_idx g) i)) l g2 = Return g' →
            (node_idx g ≤ node_idx g')%nat) as Hloop.
  { induction l as [|i l IHl]; intros g2 Hg2; simpl.
    - split; [done|]. intros g' Heq. injection Heq as <-. done.
    - destruct (IH (add_edge (next_node g2) (S (node_idx g2)) (node_idx g) i))
        as [Hno Hup]; [lia|simpl; lia|].
      destruct (fillout fuel t _) as [g3| |]; [|done..]. simpl.
      apply IHl. specialize (Hup g3 eq_refl). simpl in Hup. lia. }
  apply Hloop. lia.
Qed.

End Drawing.

(** X9.  The recursion of [_fillout_graph] ends on every tree and from every
    graph, whatever the arrays hold: a chain of nested calls never reaches
    the depth of the number of slots from [node_idx] on plus one, since each
    call reads a slot beyond that of its caller or raises. *)
Theorem fillout_graph_terminates {F} {SF : Scalar F} {U : Utils}
    {FL : Flags} {B : Bits F} (t : Tree F) (g : DiGraph) :
  _fillout_graph t g ≠ OutOfFuel
  ∧ ∀ fuel, (length (node_type t) - node_idx g < fuel)%nat →
      fillout fuel t g ≠ OutOfFuel.
Proof.
  split; [unfold _fillout_graph|intros fuel Hfuel];
    apply fillout_fuel_enough; lia.
Qed.

Lemma fillout_graph_terminates_witness :
  fillout (U := sample_utils) (FL := sample_flags) (B := float_bits) 4
    (sample_tree 2 1 (EBinary 1%float (EVar 0%float) (EVar 1%float)))
    empty_graph ≠ OutOfFuel.
Proof.
  apply (proj2 (fillout_graph_terminates (U := sample_utils)
                  (FL := sample_flags) (B := float_bits)
                  (sample_tree 2 1
                     (EBinary 1%float (EVar 0%float) (EVar 1%float)))
                  empty_graph) 4%nat).
  vm_compute. lia.
Defined.

Section Refinement.
Context {F : Type} {SF : Scalar F} {U : Utils} {FL : Flags} {B : Bits F}.
Implicit Types (e : expr F) (t : Tree F) (g : DiGraph).

Lemma plain_tag_cases :
  plain_tags →
  ∀ tag, tag = NType_VAR ∨ tag = NType_CONST ∨ tag = NType_UFUNC
         ∨ tag = NType_BFUNC ∨ tag = NType_TFUNC →
    Z.land tag NType_TYPE_MASK = tag ∧ Z.land tag NType_OUT_NODE = 0.
Proof.
  intros Hplain tag Htag. apply Hplain.
  rewrite !elem_of_cons. tauto.
Qed.

Lemma describe_root e ty v tail :
  tags_distinct →
  encode e = Node ty v (Z.of_nat (length (encode e))) :: tail →
  describe ty v (-1)
  = (node_label ← root_label e;
     Return (Some (node_label, length (children e)))).
Proof.
  intros Htags Henc. unfold describe, function_label.
  destruct e as [v0|v0|v0 c1|v0 c1 c2|v0 c1 c2 c3]; cbn [encode] in Henc;
    inversion Henc; subst; clear Henc;
    tag_cases Htags; cbn [root_label children length]; simpl.
  - by destruct (to_int _).
  - done.
  - destruct (to_int _) as [k|]; [|done]. simpl.
    by destruct (py_index FUNCS_DISPLAY k).
  - destruct (to_int _) as [k|]; [|done]. simpl.
    by destruct (py_index FUNCS_DISPLAY k).
  - destruct (to_int _) as [k|]; [|done]. simpl.
    by destruct (py_index FUNCS_DISPLAY k).
Qed.

Lemma encode_root_tag e ty v tail :
  encode e = Node ty v (Z.of_nat (length (encode e))) :: tail →
  ty = NType_VAR ∨ ty = NType_CONST ∨ ty = NType_UFUNC
  ∨ ty = NType_BFUNC ∨ ty = NType_TFUNC.
Proof.
  intros Henc. destruct e; cbn [encode] in Henc;
    inversion Henc; tauto.
Qed.

(** What a call does for the root of an encoding before it turns to the
    children. *)
Lemma visit_encode t g e :
  tags_distinct → plain_tags → holds_at t (node_idx g) (encode e) →
  visit t g
  = (node_label ← root_label e;
     Return (add_node g (node_idx g) {["label" := node_label]},
             length (children e))).
Proof.
  intros Htags Hplain Hat.
  destruct (encode_head e) as (ty & v & tail & Henc).
  pose proof Hat as Hat'. rewrite Henc in Hat'.
  destruct (holds_at_cons _ _ _ _ Hat') as (Hty & Hv & _ & _).
  cbn [n_type n_value] in Hty, Hv.
  destruct (plain_tag_cases Hplain ty (encode_root_tag _ _ _ _ Henc))
    as [Hmask Hout].
  unfold visit. rewrite (np_get_Some _ _ _ Hty). cbn [lift mbind run_bind].
  rewrite (np_get_Some _ _ _ Hv). cbn [lift mbind run_bind].
  rewrite Hmask, Hout. cbn [Z.eqb mbind run_bind].
  rewrite (describe_root e ty v tail Htags Henc).
  by destruct (root_label e).
Qed.

(** The node after the last node of the graph of an expression. *)
Lemma draw_expr_node_idx e g g' :
  draw_expr e g = Return g' →
  (node_idx g' + 1 = node_idx g + length (encode e))%nat.
Proof.
  revert g g'.
  induction e as [v|v|v c1 IH1|v c1 IH1 c2 IH2|v c1 IH1 c2 IH2 c3 IH3];
    intros g g' Hdraw; cbn [draw_expr encode length] in *;
    destruct (root_label _) as [lbl| |]; try done;
    cbn [mbind run_bind] in Hdraw.
  - injection Hdraw as <-. simpl. lia.
  - injection Hdraw as <-. simpl. lia.
  - apply IH1 in Hdraw. simpl in Hdraw. lia.
  - destruct (draw_expr c1 _) as [g1| |] eqn:H1; try done.
    cbn [mbind run_bind] in Hdraw.
    apply IH1 in H1. apply IH2 in Hdraw. simpl in *.
    rewrite length_app. lia.
  - destruct (draw_expr c1 _) as [g1| |] eqn:H1; try done.
    cbn [mbind run_bind] in Hdraw.
    destruct (draw_expr c2 _) as [g2| |] eqn:H2; try done.
    cbn [mbind run_bind] in Hdraw.
    apply IH1 in H1. apply IH2 in H2. apply IH3 in Hdraw. simpl in *.
    rewrite !length_app. lia.
Qed.

(** With fuel for the depth of the expression, the calls on the slots of an
    encoding build the graph of the expression. *)
Lemma fillout_draw t e (fuel : nat) g :
  tags_distinct → plain_tags → (depth e ≤ fuel)%nat →
  holds_at t (node_idx g) (encode e) →
  fillout fuel t g = draw_expr e g.
Proof.
  intros Htags Hplain. revert fuel g.
  induction e as [v|v|v c1 IH1|v c1 IH1 c2 IH2|v c1 IH1 c2 IH2 c3 IH3];
    intros fuel g Hfuel Hat; (destruct fuel as [|fuel]; [simpl in Hfuel; lia|]);
    cbn [fillout]; rewrite (visit_encode t g _ Htags Hplain Hat);
    cbn [draw_expr children length depth] in *;
    destruct (root_label _) as [lbl| |]; try done;
    cbn [mbind run_bind seq for_run];
    try (destruct (holds_at_cons _ _ _ _ Hat) as (_ & _ & _ & Hrest)).
  - rewrite run_bind_Return. apply IH1; [lia|done].
  - destruct (holds_at_app _ _ _ _ Hrest) as [Hat1 Hat2].
    rewrite (IH1 fuel); [|lia|done].
    destruct (draw_expr c1 _) as [g1| |] eqn:H1; try done.
    cbn [mbind run_bind]. rewrite run_bind_Return.
    apply draw_expr_node_idx in H1. simpl in H1.
    apply IH2; [lia|]. simpl.
    by replace (S (node_idx g1)) with (S (node_idx g) + length (encode c1))%nat
      by lia.
  - destruct (holds_at_app _ _ _ _ Hrest) as [Hat1 Hrest'].
    destruct (holds_at_app _ _ _ _ Hrest') as [Hat2 Hat3].
    rewrite (IH1 fuel); [|lia|done].
    destruct (draw_expr c1 _) as [g1| |] eqn:H1; try done.
    cbn [mbind run_bind].
    apply draw_expr_node_idx in H1. simpl in H1.
    rewrite (IH2 fuel); [|lia|].
    2:{ simpl.
        by replace (S (node_idx g1))
          with (S (node_idx g) + length (encode c1))%nat by lia. }
    destruct (draw_expr c2 _) as [g2| |] eqn:H2; try done.
    cbn [mbind run_bind]. rewrite run_bind_Return.
    apply draw_expr_node_idx in H2. simpl in H2.
    apply IH3; [lia|]. simpl.
    by replace (S (node_idx g2))
      with (S (node_idx g) + length (encode c1) + length (encode c2))%nat
      by lia.
Qed.

Lemma depth_le_length e : (depth e ≤ length (encode e))%nat.
Proof.
  induction e as [v|v|v c1 IH1|v c1 IH1 c2 IH2|v c1 IH1 c2 IH2 c3 IH3];
    cbn [depth encode length]; rewrite ?length_app; lia.
Qed.

Lemma fillout_graph_encode t e g :
  tags_distinct → plain_tags → holds_at t (node_idx g) (encode e) →
  _fillout_graph t g = draw_expr e g.
Proof.
  intros Htags Hplain Hat. unfold _fillout_graph.
  apply fillout_draw; try done.
  pose proof (depth_le_length e) as Hdepth.
  destruct (encode_head e) as (ty & v & tail & Henc).
  assert (length (encode e) ≠ 0)%nat as Hpos by (by rewrite Henc).
  destruct (lookup_lt_is_Some_2 (encode e) (length (encode e) - 1))
    as [nd Hnd]; [lia|].
  destruct (Hat _ _ Hnd) as (Hty & _ & _).
  apply lookup_lt_Some in Hty. lia.
Qed.

End Refinement.

Section Shape.
Context {F : Type} {SF : Scalar F} {U : Utils}.
Implicit Types (e : expr F) (g : DiGraph).

Lemma encode_nonempty e : (1 ≤ length (encode e))%nat.
Proof. destruct (encode_head e) as (ty & v & tail & ->). simpl. lia. Qed.

Lemma dom_touch (n : nat) (ns : gmap nat (gmap string string)) :
  dom (touch n ns) = {[n]} ∪ dom ns.
Proof.
  unfold touch. destruct (ns !! n) as [a|] eqn:Hn.
  - apply elem_of_dom_2 in Hn. apply set_eq. intros x. set_unfold.
    intuition congruence.
  - by rewrite dom_insert_L.
Qed.

Lemma touch_lookup_Some (n j : nat) (ns : gmap nat (gmap string string)) a :
  ns !! j = Some a → touch n ns !! j = Some a.
Proof.
  intros Hj. unfold touch. destruct (ns !! n) as [b|] eqn:Hn; [done|].
  rewrite lookup_insert_ne; [done|]. intros <-. congruence.
Qed.

Lemma dom_nodes_add_node g n a :
  dom (nodes (add_node g n a)) = {[n]} ∪ dom (nodes g).
Proof. simpl. by rewrite dom_insert_L. Qed.

Lemma dom_nodes_add_edge g u v o :
  dom (nodes (add_edge g u v o)) = {[u; v]} ∪ dom (nodes g).
Proof.
  simpl. rewrite !dom_touch. apply set_eq. intros x. set_unfold. tauto.
Qed.

Lemma dom_edges_add_edge g u v o :
  dom (edges (add_edge g u v o)) = {[(u, v)]} ∪ dom (edges g).
Proof. simpl. by rewrite dom_insert_L. Qed.

(** The nodes and the edges that the graph of an expression adds. *)
Lemma draw_expr_dom e g g' :
  draw_expr e g = Return g' →
  dom (nodes g') = dom (nodes g) ∪ set_seq (node_idx g) (length (encode e))
  ∧ dom (edges g') = dom (edges g) ∪ tree_edges e (node_idx g).
Proof.
  revert g g'.
  induction e as [v|v|v c1 IH1|v c1 IH1 c2 IH2|v c1 IH1 c2 IH2 c3 IH3];
    intros g g' Hdraw; cbn [draw_expr] in Hdraw;
    destruct (root_label _) as [lbl| |]; try done;
    cbn [mbind run_bind] in Hdraw; cbn [encode length tree_edges].
  - injection Hdraw as <-. rewrite dom_nodes_add_node. simpl.
    split; apply set_eq; intros x; set_unfold; intuition lia.
  - injection Hdraw as <-. rewrite dom_nodes_add_node. simpl.
    split; apply set_eq; intros x; set_unfold; intuition lia.
  - pose proof (encode_nonempty c1) as Hn1.
    destruct (IH1 _ _ Hdraw) as [Hnodes Hedges].
    rewrite Hnodes, Hedges, dom_nodes_add_edge, dom_edges_add_edge.
    cbn [next_node add_node node_idx nodes edges].
    rewrite dom_insert_L.
    split; apply set_eq; intros x; set_unfold; intuition lia.
  - pose proof (encode_nonempty c1) as Hn1.
    pose proof (encode_nonempty c2) as Hn2.
    destruct (draw_expr c1 _) as [g1| |] eqn:H1; try done.
    cbn [mbind run_bind] in Hdraw.
    pose proof (draw_expr_node_idx _ _ _ H1) as Hidx1. simpl in Hidx1.
    assert (node_idx g1 = node_idx g + length (encode c1))%nat as Hg1 by lia.
    destruct (IH1 _ _ H1) as [Hnodes1 Hedges1].
    destruct (IH2 _ _ Hdraw) as [Hnodes2 Hedges2].
    rewrite Hnodes2, Hedges2, !dom_nodes_add_edge, !dom_edges_add_edge.
    cbn [next_node add_node node_idx nodes edges] in *.
    rewrite Hnodes1, Hedges1, !dom_nodes_add_edge, !dom_edges_add_edge.
    cbn [next_node add_node node_idx nodes edges] in *.
    rewrite dom_insert_L, length_app.
    split; apply set_eq; intros x; set_unfold; rewrite ?Hg1;
      intuition lia.
  - pose proof (encode_nonempty c1) as Hn1.
    pose proof (encode_nonempty c2) as Hn2.
    pose proof (encode_nonempty c3) as Hn3.
    destruct (draw_expr c1 _) as [g1| |] eqn:H1; try done.
    cbn [mbind run_bind] in Hdraw.
    destruct (draw_expr c2 _) as [g2| |] eqn:H2; try done.
    cbn [mbind run_bind] in Hdraw.
    pose proof (draw_expr_node_idx _ _ _ H1) as Hidx1. simpl in Hidx1.
    pose proof (draw_expr_node_idx _ _ _ H2) as Hidx2. simpl in Hidx2.
    assert (node_idx g1 = node_idx g + length (encode c1))%nat as Hg1 by lia.
    assert (node_idx g2
            = node_idx g + length (encode c1) + length (encode c2))%nat
      as Hg2 by lia.
    destruct (IH1 _ _ H1) as [Hnodes1 Hedges1].
    destruct (IH2 _ _ H2) as [Hnodes2 Hedges2].
    destruct (IH3 _ _ Hdraw) as [Hnodes3 Hedges3].
    rewrite Hnodes3, Hedges3, !dom_nodes_add_edge, !dom_edges_add_edge.
    cbn [next_node add_node node_idx nodes edges] in *.
    rewrite Hnodes2, Hedges2, !dom_nodes_add_edge, !dom_edges_add_edge.
    cbn [next_node add_node node_idx nodes edges] in *.
    rewrite Hnodes1, Hedges1, !dom_nodes_add_edge, !dom_edges_add_edge.
    cbn [next_node add_node node_idx nodes edges] in *.
    rewrite dom_insert_L, !length_app.
    split; apply set_eq; intros x; set_unfold; rewrite ?Hg1, ?Hg2;
      intuition lia.
Qed.

Lemma touch_touch_lookup (u v j : nat) (ns : gmap nat (gmap string string))
    a :
  ns !! j = Some a → touch v (touch u ns) !! j = Some a.
Proof. intros Hj. by do 2 apply touch_lookup_Some. Qed.

Lemma add_node_label g n lbl :
  ∃ a, nodes (add_node g n {["label" := lbl]}) !! n = Some a
       ∧ a !! "label" = Some lbl.
Proof.
  eexists. simpl. rewrite lookup_insert_eq. split; [done|].
  apply lookup_union_Some_l. apply lookup_singleton_eq.
Qed.

(** The graph of an expression leaves the nodes before its own as they are,
    and gives each of its own nodes a label. *)
Lemma draw_expr_labels e g g' :
  draw_expr e g = Return g' →
  (∀ (j : nat) a, (j < node_idx g)%nat → nodes g !! j = Some a →
     nodes g' !! j = Some a)
  ∧ (∀ j : nat, (node_idx g ≤ j < node_idx g + length (encode e))%nat →
       ∃ a lbl, nodes g' !! j = Some a ∧ a !! "label" = Some lbl).
Proof.
  revert g g'.
  induction e as [v|v|v c1 IH1|v c1 IH1 c2 IH2|v c1 IH1 c2 IH2 c3 IH3];
    intros g g' Hdraw; cbn [draw_expr] in Hdraw;
    destruct (root_label _) as [lbl| |]; try done;
    cbn [mbind run_bind] in Hdraw; cbn [encode length];
    destruct (add_node_label g (node_idx g) lbl) as (a0 & Ha0 & Hlbl0);
    simpl in Ha0.
  - injection Hdraw as <-. split.
    + intros j a Hj Ha. simpl. rewrite lookup_insert_ne; [done|lia].
    + intros j Hj. replace j with (node_idx g) by lia. eauto.
  - injection Hdraw as <-. split.
    + intros j a Hj Ha. simpl. rewrite lookup_insert_ne; [done|lia].
    + intros j Hj. replace j with (node_idx g) by lia. eauto.
  - destruct (IH1 _ _ Hdraw) as [Hframe1 Hlab1]. simpl in Hframe1, Hlab1.
    split.
    + intros j a Hj Ha. apply Hframe1; [lia|].
      apply touch_touch_lookup. rewrite lookup_insert_ne; [done|lia].
    + intros j Hj. destruct (decide (j = node_idx g)) as [->|Hne].
      * exists a0, lbl. split; [|done]. apply Hframe1; [lia|].
        by apply touch_touch_lookup.
      * apply Hlab1. lia.
  - destruct (draw_expr c1 _) as [g1| |] eqn:H1; try done.
    cbn [mbind run_bind] in Hdraw.
    pose proof (draw_expr_node_idx _ _ _ H1) as Hidx1. simpl in Hidx1.
    destruct (IH1 _ _ H1) as [Hframe1 Hlab1]. simpl in Hframe1, Hlab1.
    destruct (IH2 _ _ Hdraw) as [Hframe2 Hlab2]. simpl in Hframe2, Hlab2.
    rewrite length_app.
    assert (∀ (j : nat) a, (j ≤ node_idx g)%nat →
              <[node_idx g := {["label" := lbl]}
                               ∪ default ∅ (nodes g !! node_idx g)]>
                (nodes g) !! j = Some a →
              nodes g' !! j = Some a) as Hkeep.
    { intros j a Hj Ha. apply Hframe2; [lia|].
      apply touch_touch_lookup. apply Hframe1; [lia|].
      by apply touch_touch_lookup. }
    split.
    + intros j a Hj Ha. apply Hkeep; [lia|].
      simpl. rewrite lookup_insert_ne; [done|lia].
    + intros j Hj. destruct (decide (j = node_idx g)) as [->|Hne].
      { exists a0, lbl. split; [|done]. by apply Hkeep. }
      destruct (decide (j ≤ node_idx g1)%nat) as [Hj1|Hj1].
      * destruct (Hlab1 j) as (a & l & Ha & Hl); [lia|].
        exists a, l. split; [|done]. apply Hframe2; [lia|].
        by apply touch_touch_lookup.
      * apply Hlab2. lia.
  - destruct (draw_expr c1 _) as [g1| |] eqn:H1; try done.
    cbn [mbind run_bind] in Hdraw.
    destruct (draw_expr c2 _) as [g2| |] eqn:H2; try done.
    cbn [mbind run_bind] in Hdraw.
    pose proof (draw_expr_node_idx _ _ _ H1) as Hidx1. simpl in Hidx1.
    pose proof (draw_expr_node_idx _ _ _ H2) as Hidx2. simpl in Hidx2.
    destruct (IH1 _ _ H1) as [Hframe1 Hlab1]. simpl in Hframe1, Hlab1.
    destruct (IH2 _ _ H2) as [Hframe2 Hlab2]. simpl in Hframe2, Hlab2.
    destruct (IH3 _ _ Hdraw) as [Hframe3 Hlab3]. simpl in Hframe3, Hlab3.
    rewrite !length_app.
    assert (∀ (j : nat) a, (j ≤ node_idx g1)%nat →
              nodes g1 !! j = Some a → nodes g' !! j = Some a) as Hkeep1.
    { intros j a Hj Ha. apply Hframe3; [lia|].
      apply touch_touch_lookup. apply Hframe2; [lia|].
      by apply touch_touch_lookup. }
    assert (∀ (j : nat) a, (j ≤ node_idx g)%nat →
              <[node_idx g := {["label" := lbl]}
                               ∪ default ∅ (nodes g !! node_idx g)]>
                (nodes g) !! j = Some a →
              nodes g' !! j = Some a) as Hkeep.
    { intros j a Hj Ha. apply Hkeep1; [lia|]. apply Hframe1; [lia|].
      by apply touch_touch_lookup. }
    split.
    + intros j a Hj Ha. apply Hkeep; [lia|].
      simpl. rewrite lookup_insert_ne; [done|lia].
    + intros j Hj. destruct (decide (j = node_idx g)) as [->|Hne].
      { exists a0, lbl. split; [|done]. by apply Hkeep. }
      destruct (decide (j ≤ node_idx g1)%nat) as [Hj1|Hj1].
      { destruct (Hlab1 j) as (a & l & Ha & Hl); [lia|].
        exists a, l. split; [|done]. by apply Hkeep1. }
      destruct (decide (j ≤ node_idx g2)%nat) as [Hj2|Hj2].
      * destruct (Hlab2 j) as (a & l & Ha & Hl); [lia|].
        exists a, l. split; [|done]. apply Hframe3; [lia|].
        by apply touch_touch_lookup.
      * apply Hlab3. lia.
Qed.

End Shape.

Section Success.
Context {F : Type} {SF : Scalar F} {U : Utils}.
Implicit Types (e : expr F) (g : DiGraph).

Lemma infix_expr_root_label e s :
  infix_expr e = Ok s → ∃ lbl, root_label e = Return lbl.
Proof.
  destruct e as [v|v|v c1|v c1 c2|v c1 c2 c3]; cbn [infix_expr root_label];
    intros Hs.
  - destruct (to_int v); [by eexists|done].
  - by eexists.
  - destruct (infix_expr c1); [|done]. simpl in Hs.
    destruct (to_int v) as [k|]; [|done]. simpl in *.
    destruct (py_index FUNCS_DISPLAY k); [by eexists|done].
  - destruct (infix_expr c2); [|done]. simpl in Hs.
    destruct (infix_expr c1); [|done]. simpl in Hs.
    destruct (to_int v) as [k|]; [|done]. simpl in *.
    destruct (py_index FUNCS_DISPLAY k); [by eexists|done].
  - destruct (infix_expr c3); [|done]. simpl in Hs.
    destruct (infix_expr c2); [|done]. simpl in Hs.
    destruct (infix_expr c1); [|done]. simpl in Hs.
    destruct (to_int v) as [k|]; [|done]. simpl in *.
    destruct (py_index FUNCS_DISPLAY k); [by eexists|done].
Qed.

Lemma infix_expr_children e s :
  infix_expr e = Ok s → ∀ c, c ∈ children e → ∃ sc, infix_expr c = Ok sc.
Proof.
  destruct e as [v|v|v c1|v c1 c2|v c1 c2 c3]; cbn [infix_expr children];
    intros Hs c Hc; rewrite ?elem_of_cons, elem_of_nil in Hc.
  - done.
  - done.
  - destruct (infix_expr c1) eqn:H1; [|done].
    destruct Hc as [->|[]]; eauto.
  - destruct (infix_expr c2) eqn:H2; [|done]. simpl in Hs.
    destruct (infix_expr c1) eqn:H1; [|done].
    destruct Hc as [->|[->|[]]]; eauto.
  - destruct (infix_expr c3) eqn:H3; [|done]. simpl in Hs.
    destruct (infix_expr c2) eqn:H2; [|done]. simpl in Hs.
    destruct (infix_expr c1) eqn:H1; [|done].
    destruct Hc as [->|[->|[->|[]]]]; eauto.
Qed.

(** An expression that can be written in infix form can be drawn. *)
Lemma draw_expr_succeeds e s g :
  infix_expr e = Ok s → ∃ g', draw_expr e g = Return g'.
Proof.
  revert s g.
  induction e as [v|v|v c1 IH1|v c1 IH1 c2 IH2|v c1 IH1 c2 IH2 c3 IH3];
    intros s g Hs;
    destruct (infix_expr_root_label _ _ Hs) as [lbl Hlbl];
    pose proof (infix_expr_children _ _ Hs) as Hch;
    cbn [children] in Hch; cbn [draw_expr]; rewrite Hlbl;
    cbn [mbind run_bind].
  - by eexists.
  - by eexists.
  - destruct (Hch c1) as [s1 Hs1]; [by left|]. by apply (IH1 s1).
  - destruct (Hch c1) as [s1 Hs1]; [by left|].
    destruct (Hch c2) as [s2 Hs2]; [right; by left|].
    match goal with
    | |- context [draw_expr c1 ?g0] => destruct (IH1 s1 g0 Hs1) as [g1 ->]
    end. cbn [mbind run_bind].
    by apply (IH2 s2).
  - destruct (Hch c1) as [s1 Hs1]; [by left|].
    destruct (Hch c2) as [s2 Hs2]; [right; by left|].
    destruct (Hch c3) as [s3 Hs3]; [right; right; by left|].
    match goal with
    | |- context [draw_expr c1 ?g0] => destruct (IH1 s1 g0 Hs1) as [g1 ->]
    end. cbn [mbind run_bind].
    match goal with
    | |- context [draw_expr c2 ?g0] => destruct (IH2 s2 g0 Hs2) as [g2 ->]
    end. cbn [mbind run_bind].
    by apply (IH3 s3).
Qed.

End Success.

Lemma sample_plain_tags :
  plain_tags (U := sample_utils) (FL := sample_flags).
Proof.
  intros tag Htag. simpl in Htag.
  rewrite !elem_of_cons, elem_of_nil in Htag.
  destruct Htag as [-> | [-> | [-> | [-> | [-> | []]]]]]; done.
Qed.

(** X10.  On a tree whose slots from [node_idx] on hold the encoding of an
    expression, with tags that carry no output flag, [_fillout_graph] builds
    the graph of the expression: a node for the root with its label, then,
    for each child in the order of the slots, an edge from the first slot of
    the child to the root and the graph of the child.  It raises what the
    labels raise, and it leaves [node_idx] at the last slot of the
    encoding. *)
Theorem fillout_graph_draws_expression {F} {SF : Scalar F} {U : Utils}
    {FL : Flags} {B : Bits F} (t : Tree F) (e : expr F) (g : DiGraph) :
  tags_distinct → plain_tags → holds_at t (node_idx g) (encode e) →
  _fillout_graph t g = draw_expr e g
  ∧ ∀ g', _fillout_graph t g = Return g' →
      (node_idx g' + 1 = node_idx g + length (encode e))%nat.
Proof.
  intros Htags Hplain Hat.
  pose proof (fillout_graph_encode t e g Htags Hplain Hat) as Heq.
  split; [done|]. intros g' Hg'. rewrite Heq in Hg'.
  by apply draw_expr_node_idx.
Qed.

Lemma fillout_graph_draws_expression_witness :
  _fillout_graph (U := sample_utils) (FL := sample_flags) (B := float_bits)
    (sample_tree 2 1 (EBinary 1%float (EVar 0%float) (EVar 1%float)))
    empty_graph
  = Return
      {| node_idx := 2;
         nodes := {[ 0%nat := {[ "label" := "+" ]};
                     1%nat := {[ "label" := "x[0]" ]};
                     2%nat := {[ "label" := "x[1]" ]} ]};
         edges := {[ (1%nat, 0%nat) := 0%nat; (2%nat, 0%nat) := 1%nat ]} |}.
Proof.
  rewrite (proj1 (fillout_graph_draws_expression (U := sample_utils)
                    (FL := sample_flags) (B := float_bits)
                    (sample_tree 2 1
                       (EBinary 1%float (EVar 0%float) (EVar 1%float)))
                    (EBinary 1%float (EVar 0%float) (EVar 1%float))
                    empty_graph sample_tags_distinct sample_plain_tags
                    (holds_at_tree_of 2 1 _ []))).
  vm_compute. reflexivity.
Defined.

(** X11.  For a tree whose root span is the encoding of an expression that
    [to_infix] can render, with tags that carry no output flag, the graph
    that [to_png] builds has exactly the nodes [0 .. n-1], one per slot of
    the root span, each with a [label]; its edges are those from the first
    slot of each child to its parent; and the label of the picture is
    [size: n], where [n] is [subtree_size[0]].  The padding adds nothing. *)
Theorem to_png_graph_of_encoding {F} {SF : Scalar F} {U : Utils}
    {FL : Flags} {B : Bits F} (il ol : Z) (e : expr F)
    (padding : list (node F)) (s : string) :
  tags_distinct → plain_tags → infix_expr e = Ok s →
  ∃ g, to_png_graph (tree_of il ol (encode e ++ padding))
       = Return (g, "size: " +:+ pretty (length (encode e)))
       ∧ dom (nodes g) = set_seq 0 (length (encode e))
       ∧ dom (edges g) = tree_edges e 0
       ∧ ∀ j : nat, (j < length (encode e))%nat →
           ∃ a lbl, nodes g !! j = Some a ∧ a !! "label" = Some lbl.
Proof.
  intros Htags Hplain Hs. unfold to_png_graph.
  rewrite (fillout_graph_encode _ e empty_graph Htags Hplain
             (holds_at_tree_of il ol (encode e) padding)).
  destruct (draw_expr_succeeds e s empty_graph Hs) as [g Hg].
  rewrite Hg. cbn [mbind run_bind]. exists g.
  pose proof (draw_expr_node_idx _ _ _ Hg) as Hidx. simpl in Hidx.
  destruct (draw_expr_dom _ _ _ Hg) as [Hnodes Hedges].
  destruct (draw_expr_labels _ _ _ Hg) as [_ Hlabels].
  simpl in Hnodes, Hedges, Hlabels.
  rewrite dom_empty_L, union_empty_l_L in Hnodes.
  rewrite dom_empty_L, union_empty_l_L in Hedges.
  split; [by rewrite Hidx|]. split; [done|]. split; [done|].
  intros j Hj. apply Hlabels. lia.
Qed.

Lemma to_png_graph_of_encoding_witness :
  ∃ g, to_png_graph (U := sample_utils) (FL := sample_flags)
         (B := float_bits)
         (tree_of 2 1 (encode (U := sample_utils)
                         (EBinary 1%float (EVar 0%float)
                            (EUnary 12%float (EVar 1%float)))
                       ++ [Node 3 0%float 5]))
       = Return (g, "size: 4").
Proof.
  assert (infix_expr (SF := float_scalar) (U := sample_utils)
            (EBinary 1%float (EVar 0%float)
               (EUnary 12%float (EVar 1%float)))
          = Ok "(x[0] + sin(x[1]))") as Hs by (vm_compute; reflexivity).
  destruct (to_png_graph_of_encoding (SF := float_scalar)
              (U := sample_utils) (FL := sample_flags) (B := float_bits)
              2 1 (EBinary 1%float (EVar 0%float)
                     (EUnary 12%float (EVar 1%float)))
              [Node 3 0%float 5] "(x[0] + sin(x[1]))"
              sample_tags_distinct sample_plain_tags Hs)
    as (g & Hg & _).
  exists g. exact Hg.
Defined.

Section Batches.
Context {F T : Type} {TT : Tensors T} {TO : Torch F T}.
Implicit Types (t : Tree F) (x : T).

Lemma py_index_0_cons {A} (a : A) l : py_index (a :: l) 0 = Ok a.
Proof. done. Qed.

Lemma py_index_1_cons {A} (a b : A) l : py_index (a :: b :: l) 1 = Ok b.
Proof. done. Qed.

(** The arguments of the operator for a batch [xb] of [b] rows. *)
Lemma forward_args_batch t x x' (b n : nat) :
  check_tensor x = Ok x' → shape x' = [b; n] →
  forward_args t x
  = (late_assert (bool_decide (Z.of_nat n = input_len t)) forward_x_shape;;
     Return (false,
             [AInt (Z.of_nat b); AInt (Z.of_nat (gp_len t));
              AInt (input_len t); AInt (output_len t);
              AFloats (replicate b (node_value t));
              AInts (replicate b (node_type t));
              AInts (replicate b (subtree_size t)); ATensor x'])).
Proof.
  intros Hx Hshape. unfold forward_args. rewrite Hx.
  cbn [lift mbind run_bind]. rewrite Hshape.
  cbn [length Nat.leb late_assert mbind run_bind].
  rewrite bool_decide_eq_false_2 by done.
  rewrite Hshape, py_index_1_cons, py_index_0_cons. done.
Qed.

Lemma forward_args_row t x x' (n : nat) :
  check_tensor x = Ok x' → shape x' = [n] →
  forward_args t x
  = (late_assert (bool_decide (Z.of_nat n = input_len t)) forward_x_shape;;
     Return (true,
             [AInt 1; AInt (Z.of_nat (gp_len t));
              AInt (input_len t); AInt (output_len t);
              AFloats [node_value t]; AInts [node_type t];
              AInts [subtree_size t]; ATensor (unsqueeze x')])).
Proof.
  intros Hx Hshape. unfold forward_args. rewrite Hx.
  cbn [lift mbind run_bind]. rewrite Hshape.
  cbn [length Nat.leb late_assert mbind run_bind].
  rewrite bool_decide_eq_true_2 by done.
  rewrite shape_unsqueeze, Hshape, py_index_1_cons, py_index_0_cons. done.
Qed.

Lemma forward_args_scalar t x x' :
  check_tensor x = Ok x' → shape x' = [] →
  forward_args t x = Fail (Py IndexError).
Proof.
  intros Hx Hshape. unfold forward_args. rewrite Hx.
  cbn [lift mbind run_bind]. rewrite Hshape.
  cbn [length Nat.leb late_assert mbind run_bind].
  rewrite bool_decide_eq_false_2 by done. by rewrite Hshape.
Qed.

Lemma forward_args_many t x x' :
  check_tensor x = Ok x' → (2 < length (shape x'))%nat →
  forward_args t x = Fail (LateAssertionError forward_x_dim).
Proof.
  intros Hx Hdim. unfold forward_args. rewrite Hx.
  cbn [lift mbind run_bind].
  destruct (Nat.leb_spec (length (shape x')) 2); [lia|done].
Qed.

End Batches.

(** X12.  Whenever [forward] calls the operator, the tensor it passes has
    two dimensions and [input_len] columns, the first argument is its number
    of rows, and the three arrays of the tree are passed as that many copies
    of the row; the tensor is the checked input itself, or the checked input
    with a first dimension of size one added when it has one dimension, in
    which case the first row of the result is returned. *)
Theorem forward_calls_the_operator_on_a_batch {F T} {TT : Tensors T}
    {TO : Torch F T} (t : Tree F) (x : T) :
  (forward t x).1 ≠ [] →
  ∃ (x' xb : T) (b n : nat),
    check_tensor x = Ok x'
    ∧ shape xb = [b; n] ∧ Z.of_nat n = input_len t
    ∧ (shape x' = [n] ∧ b = 1%nat ∧ xb = unsqueeze x' ∨ xb = x')
    ∧ forward t x
      = ([Called "torch.ops.evogp.tree_evaluate"],
         res ← tree_evaluate
                 [AInt (Z.of_nat b); AInt (Z.of_nat (gp_len t));
                  AInt (input_len t); AInt (output_len t);
                  AFloats (replicate b (node_value t));
                  AInts (replicate b (node_type t));
                  AInts (replicate b (subtree_size t)); ATensor xb];
         if bool_decide (length (shape x') = 1%nat) then getitem0 res
         else Return res).
Proof.
  intros Hcall. unfold forward in *.
  destruct (check_tensor x) as [x'|e] eqn:Hx.
  2:{ unfold forward_args in Hcall. rewrite Hx in Hcall. done. }
  destruct (shape x') as [|b [|n [|m l]]] eqn:Hshape.
  - by rewrite (forward_args_scalar t x x' Hx Hshape) in Hcall.
  - rename b into n.
    rewrite (forward_args_row t x x' n Hx Hshape) in Hcall |- *.
    destruct (decide (Z.of_nat n = input_len t)) as [Hn|Hn].
    + rewrite bool_decide_eq_true_2 by done.
      exists x', (unsqueeze x'), 1%nat, n.
      split_and!; rewrite ?shape_unsqueeze, ?Hshape; try done.
      by left.
    + by rewrite bool_decide_eq_false_2 in Hcall by done.
  - rewrite (forward_args_batch t x x' b n Hx Hshape) in Hcall |- *.
    destruct (decide (Z.of_nat n = input_len t)) as [Hn|Hn].
    + rewrite bool_decide_eq_true_2 by done.
      exists x', x', b, n.
      split_and!; rewrite ?Hshape; try done. by right.
    + by rewrite bool_decide_eq_false_2 in Hcall by done.
  - rewrite (forward_args_many t x x' Hx) in Hcall; [done|].
    rewrite Hshape. simpl. lia.
Qed.

Lemma forward_calls_the_operator_on_a_batch_witness :
  ∃ (x' xb : list nat) (b n : nat),
    check_tensor (Tensors := shape_tensors) [2%nat] = Ok x'
    ∧ shape (Tensors := shape_tensors) xb = [b; n].
Proof.
  destruct (forward_calls_the_operator_on_a_batch
              (TT := shape_tensors) (TO := shape_torch)
              (sample_tree 2 1
                 (EBinary 1%float (EVar 0%float) (EVar 1%float)))
              [2%nat])
    as (x' & xb & b & n & Hx & Hxb & _).
  - vm_compute. discriminate.
  - exists x', xb, b, n. by split.
Defined.

(** X13.  What [forward] rejects, it rejects before the operator is called:
    an input of more than two dimensions fails the assertion on [x.dim()];
    an input of no dimension passes it and raises [IndexError] at
    [x.shape[1]]; an input of one or two dimensions whose last size is not
    [input_len] fails the assertion on [x.shape[1]]. *)
Theorem forward_rejects_before_the_operator {F T} {TT : Tensors T}
    {TO : Torch F T} (t : Tree F) (x x' : T) :
  check_tensor x = Ok x' →
  ((2 < length (shape x'))%nat →
     forward t x = ([], Fail (LateAssertionError forward_x_dim)))
  ∧ (shape x' = [] → forward t x = ([], Fail (Py IndexError)))
  ∧ (∀ n : nat, shape x' = [n] ∨ (∃ b, shape x' = [b; n]) →
       Z.of_nat n ≠ input_len t →
       forward t x = ([], Fail (LateAssertionError forward_x_shape))).
Proof.
  intros Hx. unfold forward. split_and!.
  - intros Hdim. by rewrite (forward_args_many t x x' Hx Hdim).
  - intros Hshape. by rewrite (forward_args_scalar t x x' Hx Hshape).
  - intros n [Hshape|[b Hshape]] Hn.
    + rewrite (forward_args_row t x x' n Hx Hshape).
      by rewrite bool_decide_eq_false_2 by done.
    + rewrite (forward_args_batch t x x' b n Hx Hshape).
      by rewrite bool_decide_eq_false_2 by done.
Qed.

Lemma forward_rejects_before_the_operator_witness :
  forward (TT := shape_tensors) (TO := shape_torch)
    (sample_tree 2 1 (EBinary 1%float (EVar 0%float) (EVar 1%float))) []
  = ([], Fail (Py IndexError)).
Proof.
  exact (proj1 (proj2 (forward_rejects_before_the_operator
                         (TT := shape_tensors) (TO := shape_torch)
                         (sample_tree 2 1
                            (EBinary 1%float (EVar 0%float) (EVar 1%float)))
                         [] [] eq_refl)) eq_refl).
Defined.

(** X14.  An input of one dimension is evaluated as the batch of one row:
    when [check_tensor] leaves the batch [x.unsqueeze(0)] as it is,
    [forward] on [x] returns the first row of what [forward] returns on
    that batch, and raises what it raises. *)
Theorem forward_row_is_batch_of_one {F T} {TT : Tensors T}
    {TO : Torch F T} (t : Tree F) (x x' : T) (n : nat) :
  check_tensor x = Ok x' → shape x' = [n] →
  check_tensor (unsqueeze x') = Ok (unsqueeze x') →
  forward t x
  = ((forward t (unsqueeze x')).1,
     res ← (forward t (unsqueeze x')).2; getitem0 res).
Proof.
  intros Hx Hshape Hbatch. unfold forward.
  rewrite (forward_args_row t x x' n Hx Hshape).
  rewrite (forward_args_batch t (unsqueeze x') (unsqueeze x') 1 n Hbatch)
    by (by rewrite shape_unsqueeze, Hshape).
  destruct (bool_decide (Z.of_nat n = input_len t)); [|done].
  cbn [late_assert mbind run_bind replicate fst snd].
  change (Z.of_nat 1) with 1.
  by destruct (tree_evaluate _).
Qed.

Lemma forward_row_is_batch_of_one_witness :
  forward (TT := shape_tensors) (TO := shape_torch)
    (sample_tree 2 1 (EBinary 1%float (EVar 0%float) (EVar 1%float)))
    [2%nat]
  = ([Called "torch.ops.evogp.tree_evaluate"], Return [1%nat]).
Proof.
  exact (forward_row_is_batch_of_one
           (TT := shape_tensors) (TO := shape_torch)
           (sample_tree 2 1 (EBinary 1%float (EVar 0%float) (EVar 1%float)))
           [2%nat] [2%nat] 2 eq_refl eq_refl eq_refl).
Defined.
